(** * AnimeRig character renderer: soft-body physics and expression core

    A shallow embedding of [CharacterRenderer_complex.cpp] and
    [CharacterRenderer.h] (namespace [AnimeRig]).

    The C++ code computes on [float].  Every function of the renderer is
    written once, over an interface [FloatOps] of the arithmetic the code
    uses, and the interface has two instances:

    - [binary32_ops]: IEEE-754 single precision, round to nearest even, on
      the [spec_float] of the Standard Library (executable);
    - [real_ops]: exact arithmetic on the reals, the idealisation under which
      the numeric laws of the specification (approach without overshoot,
      halving of the constraint error) are stated.

    Properties that only depend on the control flow of the code (pinned
    particles, skipped constraints, no-ops, frames) are proved for every
    instance of the interface at once. *)

From Stdlib Require Import ZArith List Bool Lia Reals Lra.
From Stdlib Require Import Floats.SpecFloat.
From Stdlib Require Strings.String.
From stdpp Require Import base list.

Set Default Proof Using "Type".

(** ** Arithmetic interface *)

Class FloatOps (F : Type) := {
  (** the [float] literal written [num/den] in decimal, e.g. [0.99f] is
      [f_lit 99 100] *)
  f_lit : Z -> positive -> F;
  (** conversion [int -> float] *)
  f_of_int : Z -> F;
  f_add : F -> F -> F;
  f_sub : F -> F -> F;
  f_mul : F -> F -> F;
  f_div : F -> F -> F;
  f_opp : F -> F;
  f_sqrt : F -> F;
  (** [x < y] and [x == y] of C++ *)
  f_ltb : F -> F -> bool;
  f_eqb : F -> F -> bool
}.

(** Infix notations for the interface, marked with [!]. *)
Module FloatNotations.
Declare Scope float_scope.
Delimit Scope float_scope with flt.
Infix "+!" := f_add (at level 50, left associativity) : float_scope.
Infix "-!" := f_sub (at level 50, left associativity) : float_scope.
Infix "*!" := f_mul (at level 40, left associativity) : float_scope.
Infix "/!" := f_div (at level 40, left associativity) : float_scope.
Notation "-! x" := (f_opp x) (at level 35, right associativity) : float_scope.
Infix "<.?" := f_ltb (at level 70, no associativity) : float_scope.
Notation "x >.? y" := (f_ltb y x) (at level 70, no associativity) : float_scope.
End FloatNotations.
Import FloatNotations.

(** ** Data model ([CharacterRenderer.h]) *)

(** [glm::vec3] *)
Record vec3 (F : Type) := Vec3 { vx : F; vy : F; vz : F }.
Arguments Vec3 {F} _ _ _.
Arguments vx {F} _.
Arguments vy {F} _.
Arguments vz {F} _.

Record Vertex (F : Type) := mkVertex {
  vertex_position : vec3 F;
  normal : vec3 F;
  texCoords : F * F;
  boneIds : F * F * F * F;
  weights : F * F * F * F
}.
Arguments mkVertex {F} _ _ _ _ _.
Arguments vertex_position {F} _.
Arguments normal {F} _.
Arguments texCoords {F} _.
Arguments boneIds {F} _.
Arguments weights {F} _.

(** [MeshRegion::PhysicsParticle] *)
Record PhysicsParticle (F : Type) := mkParticle {
  position : vec3 F;
  oldPosition : vec3 F;
  acceleration : vec3 F;
  mass : F;
  pinned : bool
}.
Arguments mkParticle {F} _ _ _ _ _.
Arguments position {F} _.
Arguments oldPosition {F} _.
Arguments acceleration {F} _.
Arguments mass {F} _.
Arguments pinned {F} _.

(** [MeshRegion].  A constraint is a [std::pair<int, int>]; the buffer
    handles are [unsigned int]. *)
Record MeshRegion (F : Type) := mkRegion {
  vertices : list (Vertex F);
  indices : list Z;
  VAO : Z;
  VBO : Z;
  EBO : Z;
  textureId : Z;
  particles : list (PhysicsParticle F);
  constraints : list (Z * Z)
}.
Arguments mkRegion {F} _ _ _ _ _ _ _ _.
Arguments vertices {F} _.
Arguments indices {F} _.
Arguments VAO {F} _.
Arguments VBO {F} _.
Arguments EBO {F} _.
Arguments textureId {F} _.
Arguments particles {F} _.
Arguments constraints {F} _.

Inductive EmotionType :=
  NEUTRAL | HAPPY | SAD | SURPRISED | ANGRY | THINKING | EXCITED.

Inductive Hand := LEFT | RIGHT.

Record FacialExpression (F : Type) := mkExpression {
  eyeOpenness : F;
  mouthOpenness : F;
  smileIntensity : F;
  browRaise : F;
  primaryEmotion : EmotionType;
  intensity : F
}.
Arguments mkExpression {F} _ _ _ _ _ _.
Arguments eyeOpenness {F} _.
Arguments mouthOpenness {F} _.
Arguments smileIntensity {F} _.
Arguments browRaise {F} _.
Arguments primaryEmotion {F} _.
Arguments intensity {F} _.

Record FingerPose (F : Type) := mkFingerPose {
  fingerBends : list F;
  handPosition : vec3 F;
  handRotation : F * F * F * F
}.
Arguments mkFingerPose {F} _ _ _.

(** [Character::BodyParts] *)
Record BodyParts (F : Type) := mkParts {
  head : MeshRegion F;
  hair : MeshRegion F;
  leftEye : MeshRegion F;
  rightEye : MeshRegion F;
  mouth : MeshRegion F;
  leftFingers : list (MeshRegion F);
  rightFingers : list (MeshRegion F);
  clothing : MeshRegion F;
  skirt : MeshRegion F
}.
Arguments mkParts {F} _ _ _ _ _ _ _ _ _.
Arguments head {F} _.
Arguments hair {F} _.
Arguments leftEye {F} _.
Arguments rightEye {F} _.
Arguments mouth {F} _.
Arguments leftFingers {F} _.
Arguments rightFingers {F} _.
Arguments clothing {F} _.
Arguments skirt {F} _.

(** [CharacterRenderer::Character].  The two [unique_ptr] members
    ([skeleton], [physics]) point to incomplete types and are never
    dereferenced; they carry no state here. *)
Record Character (F : Type) := mkCharacter {
  character_vertices : list (Vertex F);
  character_indices : list Z;
  parts : BodyParts F;
  currentExpression : FacialExpression F;
  leftHandPose : FingerPose F;
  rightHandPose : FingerPose F;
  breathingOffset : vec3 F;
  blinkTimer : F;
  hairStiffness : F;
  clothStiffness : F;
  windForce : vec3 F
}.
Arguments mkCharacter {F} _ _ _ _ _ _ _ _ _ _ _.
Arguments character_vertices {F} _.
Arguments character_indices {F} _.
Arguments parts {F} _.
Arguments currentExpression {F} _.
Arguments leftHandPose {F} _.
Arguments rightHandPose {F} _.
Arguments breathingOffset {F} _.
Arguments blinkTimer {F} _.
Arguments hairStiffness {F} _.
Arguments clothStiffness {F} _.
Arguments windForce {F} _.

(** The members of [CharacterRenderer] that the animation and physics
    code reads or writes.  Window, shader handles and camera matrices are
    only touched by the OpenGL glue. *)
Record CharacterRenderer (F : Type) := mkRenderer {
  character : Character F;
  deltaTime : F;
  lastFrame : F;
  enablePhysics : bool
}.
Arguments mkRenderer {F} _ _ _ _.
Arguments character {F} _.
Arguments deltaTime {F} _.
Arguments lastFrame {F} _.
Arguments enablePhysics {F} _.

(** ** Integer conversions

    [std::vector::size()] is a [size_t] (64 bits); comparing an [int] with
    it, and indexing a vector with an [int], first converts the [int] to
    [size_t], i.e. reduces it modulo [2^64]. *)

Definition to_size_t (i : Z) : Z := i mod 2 ^ 64.

Definition int_range (i : Z) : Prop := (- 2 ^ 31 <= i < 2 ^ 31)%Z.

(** [std::vector::max_size()] is below [PTRDIFF_MAX] for any element type. *)
Definition vector_size_ok {A} (l : list A) : Prop :=
  (Z.of_nat (length l) < 2 ^ 63)%Z.

(** ** The renderer, over any arithmetic *)

Section Renderer.
Context {F : Type} {ops : FloatOps F}.
Local Open Scope float_scope.

(** *** GLM *)

Definition v3_add (a b : vec3 F) : vec3 F :=
  Vec3 (vx a +! vx b) (vy a +! vy b) (vz a +! vz b).

Definition v3_sub (a b : vec3 F) : vec3 F :=
  Vec3 (vx a -! vx b) (vy a -! vy b) (vz a -! vz b).

(** [v * s] *)
Definition v3_scale (v : vec3 F) (s : F) : vec3 F :=
  Vec3 (vx v *! s) (vy v *! s) (vz v *! s).

Definition v3_dot (a b : vec3 F) : F :=
  vx a *! vx b +! vy a *! vy b +! vz a *! vz b.

(** [glm::length] *)
Definition v3_length (v : vec3 F) : F := f_sqrt (v3_dot v v).

(** [glm::min], [glm::max], [glm::clamp], [glm::mix] on scalars, as GLM
    defines them: [min(x, y) = (y < x) ? y : x],
    [max(x, y) = (x < y) ? y : x], [clamp(x, lo, hi) = min(max(x, lo), hi)]
    and [mix(x, y, a) = x * (1 - a) + y * a]. *)
Definition glm_min (x y : F) : F := if y <.? x then y else x.
Definition glm_max (x y : F) : F := if x <.? y then y else x.
Definition glm_clamp (x minVal maxVal : F) : F :=
  glm_min (glm_max x minVal) maxVal.
Definition glm_mix (x y a : F) : F :=
  x *! (f_of_int 1 -! a) +! y *! a.

(** *** Field updates *)

Definition set_position (p : PhysicsParticle F) (v : vec3 F) :=
  mkParticle v (oldPosition p) (acceleration p) (mass p) (pinned p).

Definition set_vertex_position (v : Vertex F) (x : vec3 F) :=
  mkVertex x (normal v) (texCoords v) (boneIds v) (weights v).

Definition set_particles (r : MeshRegion F) (ps : list (PhysicsParticle F)) :=
  mkRegion (vertices r) (indices r) (VAO r) (VBO r) (EBO r) (textureId r)
           ps (constraints r).

Definition set_vertices (r : MeshRegion F) (vs : list (Vertex F)) :=
  mkRegion vs (indices r) (VAO r) (VBO r) (EBO r) (textureId r)
           (particles r) (constraints r).

Definition set_hair (b : BodyParts F) (r : MeshRegion F) :=
  mkParts (head b) r (leftEye b) (rightEye b) (mouth b) (leftFingers b)
          (rightFingers b) (clothing b) (skirt b).

Definition set_parts (c : Character F) (b : BodyParts F) :=
  mkCharacter (character_vertices c) (character_indices c) b
              (currentExpression c) (leftHandPose c) (rightHandPose c)
              (breathingOffset c) (blinkTimer c) (hairStiffness c)
              (clothStiffness c) (windForce c).

Definition set_currentExpression (c : Character F) (e : FacialExpression F) :=
  mkCharacter (character_vertices c) (character_indices c) (parts c)
              e (leftHandPose c) (rightHandPose c)
              (breathingOffset c) (blinkTimer c) (hairStiffness c)
              (clothStiffness c) (windForce c).

Definition set_breathingOffset (c : Character F) (v : vec3 F) :=
  mkCharacter (character_vertices c) (character_indices c) (parts c)
              (currentExpression c) (leftHandPose c) (rightHandPose c)
              v (blinkTimer c) (hairStiffness c)
              (clothStiffness c) (windForce c).

Definition set_blinkTimer (c : Character F) (t : F) :=
  mkCharacter (character_vertices c) (character_indices c) (parts c)
              (currentExpression c) (leftHandPose c) (rightHandPose c)
              (breathingOffset c) t (hairStiffness c)
              (clothStiffness c) (windForce c).

Definition set_character (st : CharacterRenderer F) (c : Character F) :=
  mkRenderer c (deltaTime st) (lastFrame st) (enablePhysics st).

Definition set_deltaTime (st : CharacterRenderer F) (dt : F) :=
  mkRenderer (character st) dt (lastFrame st) (enablePhysics st).

Definition set_lastFrame (st : CharacterRenderer F) (t : F) :=
  mkRenderer (character st) (deltaTime st) t (enablePhysics st).

Definition set_eyeOpenness (e : FacialExpression F) (x : F) :=
  mkExpression x (mouthOpenness e) (smileIntensity e) (browRaise e)
               (primaryEmotion e) (intensity e).

(** *** Physics *)

(** [InitializePhysicsParticles]: one particle per vertex, the first ten
    pinned.  The constraint list is left as it is. *)
Definition InitializePhysicsParticles (region : MeshRegion F) : MeshRegion F :=
  set_particles region
    (imap (fun i v =>
             mkParticle (vertex_position v) (vertex_position v)
                        (Vec3 (f_lit 0 1) (f_lit 0 1) (f_lit 0 1))
                        (f_lit 1 1)
                        (bool_decide (i < 10)%nat))
          (vertices region)).

(** The body of the integration loop of [UpdateHairPhysics]. *)
Definition integrate_particle (wind : vec3 F) (dt : F)
    (particle : PhysicsParticle F) : PhysicsParticle F :=
  if pinned particle then particle
  else
    let temp := position particle in
    let velocity := v3_sub (position particle) (oldPosition particle) in
    let acc := v3_add (Vec3 (f_lit 0 1) (-! f_lit 981 100) (f_lit 0 1)) wind in
    let pos :=
      v3_add (position particle)
             (v3_add (v3_scale velocity (f_lit 99 100))
                     (v3_scale (v3_scale acc dt) dt)) in
    mkParticle pos temp acc (mass particle) (pinned particle).

(** One iteration of the loop of [SatisfyConstraints].  [p1] and [p2] are
    references into the vector: the write through [p2] reads the vector
    after the write through [p1]. *)
Definition satisfy_constraint (ps : list (PhysicsParticle F))
    (constraint : Z * Z) : list (PhysicsParticle F) :=
  let i := constraint.1 in
  let j := constraint.2 in
  let size := Z.of_nat (length ps) in
  if (size <=? to_size_t i)%Z || (size <=? to_size_t j)%Z then ps
  else
    let i' := Z.to_nat (to_size_t i) in
    let j' := Z.to_nat (to_size_t j) in
    match ps !! i', ps !! j' with
    | Some p1, Some p2 =>
        let delta := v3_sub (position p2) (position p1) in
        let distance := v3_length delta in
        let restLength := f_lit 1 10 in
        if distance >.? f_lit 0 1 then
          let difference := (restLength -! distance) /! distance in
          let translate := v3_scale (v3_scale delta difference) (f_lit 5 10) in
          let ps1 :=
            if pinned p1 then ps
            else <[i' := set_position p1 (v3_sub (position p1) translate)]> ps in
          match ps1 !! j' with
          | Some q2 =>
              if pinned q2 then ps1
              else <[j' := set_position q2 (v3_add (position q2) translate)]> ps1
          | None => ps1
          end
        else ps
    | _, _ => ps
    end.

Definition relax (cs : list (Z * Z)) (ps : list (PhysicsParticle F)) :=
  foldl satisfy_constraint ps cs.

Definition SatisfyConstraints (region : MeshRegion F) : MeshRegion F :=
  set_particles region (relax (constraints region) (particles region)).

(** The loop of [ApplyPhysicsToMesh]: indices below both sizes. *)
Fixpoint write_back (ps : list (PhysicsParticle F)) (vs : list (Vertex F))
    : list (Vertex F) :=
  match ps, vs with
  | p :: ps', v :: vs' =>
      set_vertex_position v (position p) :: write_back ps' vs'
  | _, _ => vs
  end.

Definition ApplyPhysicsToMesh (region : MeshRegion F) : MeshRegion F :=
  set_vertices region (write_back (particles region) (vertices region)).

Definition UpdateHairPhysics (dt : F) (st : CharacterRenderer F)
    : CharacterRenderer F :=
  let c := character st in
  let region := hair (parts c) in
  match particles region with
  | [] => st
  | _ :: _ =>
      let region1 :=
        set_particles region
          (map (integrate_particle (windForce c) dt) (particles region)) in
      let region2 := SatisfyConstraints region1 in
      let region3 := ApplyPhysicsToMesh region2 in
      set_character st (set_parts c (set_hair (parts c) region3))
  end.

Definition UpdateClothPhysics (dt : F) (st : CharacterRenderer F)
    : CharacterRenderer F :=
  match particles (skirt (parts (character st))) with
  | [] => st
  | _ :: _ => UpdateHairPhysics dt st
  end.

(** *** Expressions *)

(** [InterpolateExpression]: one [glm::mix] per facial parameter, with the
    factor taken from the renderer's stored [deltaTime]. *)
Definition InterpolateExpression (target : FacialExpression F) (speed : F)
    (st : CharacterRenderer F) : CharacterRenderer F :=
  let factor := deltaTime st *! speed in
  let cur := currentExpression (character st) in
  set_character st
    (set_currentExpression (character st)
       (mkExpression
          (glm_mix (eyeOpenness cur) (eyeOpenness target) factor)
          (glm_mix (mouthOpenness cur) (mouthOpenness target) factor)
          (glm_mix (smileIntensity cur) (smileIntensity target) factor)
          (glm_mix (browRaise cur) (browRaise target) factor)
          (primaryEmotion cur) (intensity cur))).

(** [AnimateFacialExpression] (the message on [std::cout] is not part of
    the state). *)
Definition AnimateFacialExpression (expression : FacialExpression F)
    (st : CharacterRenderer F) : CharacterRenderer F :=
  InterpolateExpression expression (f_lit 2 1) st.

(** The local [expression] of [SetEmotion] when it reaches the call of
    [AnimateFacialExpression]. *)
Definition SetEmotion_expression (emotion : EmotionType) (i : F)
    (cur : FacialExpression F) : FacialExpression F :=
  let clamped := glm_clamp i (f_lit 0 1) (f_lit 1 1) in
  match emotion with
  | HAPPY =>
      mkExpression (f_lit 1 1 +! i *! f_lit 2 10) (mouthOpenness cur)
                   i (browRaise cur) emotion clamped
  | SAD =>
      mkExpression (f_lit 1 1 -! i *! f_lit 3 10) (mouthOpenness cur)
                   (-! i *! f_lit 5 10) (-! i *! f_lit 4 10) emotion clamped
  | SURPRISED =>
      mkExpression (f_lit 1 1 +! i *! f_lit 5 10) (i *! f_lit 3 10)
                   (smileIntensity cur) (i *! f_lit 6 10) emotion clamped
  | THINKING =>
      mkExpression (f_lit 1 1 -! i *! f_lit 2 10) (mouthOpenness cur)
                   (smileIntensity cur) (i *! f_lit 3 10) emotion clamped
  | _ =>
      mkExpression (eyeOpenness cur) (mouthOpenness cur)
                   (smileIntensity cur) (browRaise cur) emotion clamped
  end.

Definition SetEmotion (emotion : EmotionType) (i : F)
    (st : CharacterRenderer F) : CharacterRenderer F :=
  AnimateFacialExpression
    (SetEmotion_expression emotion i (currentExpression (character st))) st.

Definition TriggerBlink (st : CharacterRenderer F) : CharacterRenderer F :=
  set_character st
    (set_currentExpression (character st)
       (set_eyeOpenness (currentExpression (character st)) (f_lit 1 10))).

(** *** Frame update

    [sin] of libm and the constant [M_PI] are taken as parameters; the
    value of [rand()] and of [glfwGetTime()] at the call are arguments.
    The source evaluates the product with [M_PI], the sine and the product
    with the amplitude in [double] and rounds once to [float]; here the
    two products are those of the interface, which is the same value in
    exact arithmetic only.  Nothing below reads the breathing offset at
    binary32. *)

Section Frame.
Variable libm_sin : F -> F.
Variable M_PI : F.

(** The test of the blink [if], on the timer after [+= deltaTime]. *)
Definition blink_fires (timer : F) (rnd : Z) : bool :=
  timer >.? f_lit 3 1 +! f_of_int (Z.rem rnd 3).

Definition UpdateIdleAnimations (time : F) (rnd : Z)
    (st : CharacterRenderer F) : CharacterRenderer F :=
  let breathingFreq := f_lit 25 100 in
  let breathingAmp := f_lit 2 100 in
  let c := character st in
  let off := breathingOffset c in
  let c1 :=
    set_breathingOffset c
      (Vec3 (vx off)
            (libm_sin (time *! breathingFreq *! f_lit 2 1 *! M_PI)
               *! breathingAmp)
            (vz off)) in
  let c2 := set_blinkTimer c1 (blinkTimer c1 +! deltaTime st) in
  let st2 := set_character st c2 in
  if blink_fires (blinkTimer c2) rnd then
    let st3 := TriggerBlink st2 in
    set_character st3 (set_blinkTimer (character st3) (f_lit 0 1))
  else st2.

(** [ApplyMorphTargets] has an empty body. *)
Definition ApplyMorphTargets (st : CharacterRenderer F) := st.

Definition UpdateAnimation (dt : F) (now : F) (rnd : Z)
    (st : CharacterRenderer F) : CharacterRenderer F :=
  let st1 := set_deltaTime st dt in
  let currentFrame := now in
  let st2 := set_deltaTime st1 (currentFrame -! lastFrame st1) in
  let st3 := set_lastFrame st2 currentFrame in
  let st4 := UpdateIdleAnimations currentFrame rnd st3 in
  let st5 :=
    if enablePhysics st4
    then UpdateClothPhysics dt (UpdateHairPhysics dt st4)
    else st4 in
  ApplyMorphTargets st5.

End Frame.

End Renderer.

Arguments UpdateIdleAnimations {F ops} libm_sin M_PI time rnd st.
Arguments UpdateAnimation {F ops} libm_sin M_PI dt now rnd st.

(** ** Instance: IEEE-754 binary32 *)

Module Binary32.

Definition prec : Z := 24.
Definition emax : Z := 128.

Definition of_Z (z : Z) : spec_float := binary_normalize prec emax z 0 false.

(** A decimal literal [n/d] with [n] and [d] below [2^24]: both are exact
    in binary32 and the division rounds correctly, so the result is the
    float nearest to the decimal. *)
Definition lit (n : Z) (d : positive) : spec_float :=
  SFdiv prec emax (of_Z n) (of_Z (Z.pos d)).

End Binary32.

#[export] Instance binary32_ops : FloatOps spec_float := {|
  f_lit := Binary32.lit;
  f_of_int := Binary32.of_Z;
  f_add := SFadd Binary32.prec Binary32.emax;
  f_sub := SFsub Binary32.prec Binary32.emax;
  f_mul := SFmul Binary32.prec Binary32.emax;
  f_div := SFdiv Binary32.prec Binary32.emax;
  f_opp := SFopp;
  f_sqrt := SFsqrt Binary32.prec Binary32.emax;
  f_ltb := SFltb;
  f_eqb := SFeqb
|}.

(** ** Instance: exact real arithmetic *)

Definition R_lit (n : Z) (d : positive) : R := (IZR n / IZR (Z.pos d))%R.

Definition R_ltb (x y : R) : bool := if Rlt_dec x y then true else false.
Definition R_eqb (x y : R) : bool := if Req_dec_T x y then true else false.

#[export] Instance real_ops : FloatOps R := {|
  f_lit := R_lit;
  f_of_int := IZR;
  f_add := Rplus;
  f_sub := Rminus;
  f_mul := Rmult;
  f_div := Rdiv;
  f_opp := Ropp;
  f_sqrt := sqrt;
  f_ltb := R_ltb;
  f_eqb := R_eqb
|}.

(** ** Division made explicit

    The same loop with the division of [SatisfyConstraints] trapping on a
    zero divisor: [None] stands for a division by zero having been
    evaluated.  Everything else is as in [satisfy_constraint]. *)

Section Checked.
Context {F : Type} {ops : FloatOps F}.
Local Open Scope float_scope.

Definition checked_div (x y : F) : option F :=
  if f_eqb y (f_lit 0 1) then None else Some (x /! y).

Definition satisfy_constraint_checked (ps : list (PhysicsParticle F))
    (constraint : Z * Z) : option (list (PhysicsParticle F)) :=
  let i := constraint.1 in
  let j := constraint.2 in
  let size := Z.of_nat (length ps) in
  if (size <=? to_size_t i)%Z || (size <=? to_size_t j)%Z then Some ps
  else
    let i' := Z.to_nat (to_size_t i) in
    let j' := Z.to_nat (to_size_t j) in
    match ps !! i', ps !! j' with
    | Some p1, Some p2 =>
        let delta := v3_sub (position p2) (position p1) in
        let distance := v3_length delta in
        let restLength := f_lit 1 10 in
        if distance >.? f_lit 0 1 then
          difference ← checked_div (restLength -! distance) distance;
          let translate := v3_scale (v3_scale delta difference) (f_lit 5 10) in
          let ps1 :=
            if pinned p1 then ps
            else <[i' := set_position p1 (v3_sub (position p1) translate)]> ps in
          match ps1 !! j' with
          | Some q2 =>
              if pinned q2 then Some ps1
              else Some (<[j' := set_position q2
                                   (v3_add (position q2) translate)]> ps1)
          | None => Some ps1
          end
        else Some ps
    | _, _ => Some ps
    end.

Fixpoint relax_checked (cs : list (Z * Z)) (ps : list (PhysicsParticle F))
    : option (list (PhysicsParticle F)) :=
  match cs with
  | [] => Some ps
  | c :: cs' => ps' ← satisfy_constraint_checked ps c; relax_checked cs' ps'
  end.

(** A constraint is in range when both indices address a particle. *)
Definition in_range (ps : list (PhysicsParticle F)) (c : Z * Z) : Prop :=
  (0 <= c.1 < Z.of_nat (length ps))%Z /\ (0 <= c.2 < Z.of_nat (length ps))%Z.

(** The two endpoints of a constraint are at the same position. *)
Definition coincident (ps : list (PhysicsParticle F)) (c : Z * Z) : Prop :=
  exists p1 p2,
    ps !! Z.to_nat c.1 = Some p1 /\ ps !! Z.to_nat c.2 = Some p2 /\
    position p1 = position p2.

End Checked.

(** The two facts about the arithmetic that the skipping of degenerate
    constraints rests on; both instances satisfy them. *)
Class FloatLaws (F : Type) {ops : FloatOps F} : Prop := {
  length_sub_self_not_pos :
    forall v : vec3 F, f_ltb (f_lit 0 1) (v3_length (v3_sub v v)) = false;
  pos_not_zero :
    forall x : F, f_ltb (f_lit 0 1) x = true -> f_eqb x (f_lit 0 1) = false
}.

(** ** The specification's own formulations (exact arithmetic) *)

Module Spec.
Local Open Scope R_scope.

Definition gravity : vec3 R := Vec3 0 (-9.81) 0.
Definition damping : R := 0.99.

(** The integration rule in the specification's words:
    [velocity = position - previousPosition],
    [acceleration = gravity + windForce],
    [newPosition = position + velocity * damping + acceleration * dt^2],
    [previousPosition = position].  The result is the pair
    (new position, new previous position). *)
Definition integration_rule (windForce : vec3 R) (dt : R)
    (p : PhysicsParticle R) : vec3 R * vec3 R :=
  let velocity := v3_sub (position p) (oldPosition p) in
  let acc := v3_add gravity windForce in
  let newPosition :=
    v3_add (v3_add (position p) (v3_scale velocity damping))
           (v3_scale acc (dt ^ 2)) in
  (newPosition, position p).

(** [new] lies between [cur] and [target], and is strictly nearer to
    [target] than [cur] unless [cur] is already there. *)
Definition moves_toward (cur new target : R) : Prop :=
  (cur <= target -> cur <= new <= target /\ (cur < target -> cur < new)) /\
  (target <= cur -> target <= new <= cur /\ (target < cur -> new < cur)).

(** Distance between the two particles of a two-particle region. *)
Definition separation (ps : list (PhysicsParticle R)) : R :=
  match ps with
  | [a; b] => v3_length (v3_sub (position b) (position a))
  | _ => 0
  end.

(** [n] relaxation passes. *)
Definition passes (cs : list (Z * Z)) (n : nat)
    (ps : list (PhysicsParticle R)) : list (PhysicsParticle R) :=
  Nat.iter n (relax cs) ps.

End Spec.

(** ** Sample states *)

Section Samples.
Context {F : Type} {ops : FloatOps F}.

(** [FacialExpression()] with the default member initialisers. *)
Definition default_expression : FacialExpression F :=
  mkExpression (f_lit 1 1) (f_lit 0 1) (f_lit 0 1) (f_lit 0 1)
               NEUTRAL (f_lit 5 10).

Definition zero3 : vec3 F := Vec3 (f_lit 0 1) (f_lit 0 1) (f_lit 0 1).

Definition point (x y z : F) (pin : bool) : PhysicsParticle F :=
  mkParticle (Vec3 x y z) (Vec3 x y z) zero3 (f_lit 1 1) pin.

Definition vertex_at (x y z : F) : Vertex F :=
  mkVertex (Vec3 x y z) zero3 (f_lit 0 1, f_lit 0 1)
           (f_lit 0 1, f_lit 0 1, f_lit 0 1, f_lit 0 1)
           (f_lit 0 1, f_lit 0 1, f_lit 0 1, f_lit 0 1).

Definition region_of (vs : list (Vertex F)) (ps : list (PhysicsParticle F))
    (cs : list (Z * Z)) : MeshRegion F :=
  mkRegion vs [] 0 0 0 0 ps cs.

Definition empty_region : MeshRegion F := region_of [] [] [].

Definition neutral_pose : FingerPose F :=
  mkFingerPose (replicate 5 (f_lit 0 1)) zero3
               (f_lit 0 1, f_lit 0 1, f_lit 0 1, f_lit 1 1).

(** A renderer whose character has the given hair and skirt regions, the
    default expression, no wind, and the given stored frame time. *)
Definition renderer_with (hair_region skirt_region : MeshRegion F)
    (timer dt : F) : CharacterRenderer F :=
  mkRenderer
    (mkCharacter [] []
       (mkParts empty_region hair_region empty_region empty_region
                empty_region [] [] empty_region skirt_region)
       default_expression neutral_pose neutral_pose zero3 timer
       (f_lit 8 10) (f_lit 6 10) zero3)
    dt (f_lit 0 1) true.

(** A strand of two particles, the first pinned, tied by one constraint. *)
Definition strand : MeshRegion F :=
  region_of [vertex_at (f_lit 0 1) (f_lit 0 1) (f_lit 0 1);
             vertex_at (f_lit 0 1) (f_lit (-1) 1) (f_lit 0 1)]
            [point (f_lit 0 1) (f_lit 0 1) (f_lit 0 1) true;
             point (f_lit 0 1) (f_lit (-1) 1) (f_lit 0 1) false]
            [(0, 1)%Z].

(** Two particles at the same point, the first pinned, tied by one
    constraint. *)
Definition knot : MeshRegion F :=
  region_of []
            [point (f_lit 0 1) (f_lit 0 1) (f_lit 0 1) true;
             point (f_lit 0 1) (f_lit 0 1) (f_lit 0 1) false]
            [(0, 1)%Z].

(** A renderer right after a blink, with the given stored frame time. *)
Definition blinked (dt : F) : CharacterRenderer F :=
  TriggerBlink (renderer_with empty_region empty_region (f_lit 0 1) dt).

End Samples.

(** ** Loading, finger poses, frame runs and drawing *)

Section Loading.
Context {F : Type} {ops : FloatOps F}.

Definition set_head (b : BodyParts F) (r : MeshRegion F) :=
  mkParts r (hair b) (leftEye b) (rightEye b) (mouth b) (leftFingers b)
          (rightFingers b) (clothing b) (skirt b).

Definition set_skirt (b : BodyParts F) (r : MeshRegion F) :=
  mkParts (head b) (hair b) (leftEye b) (rightEye b) (mouth b) (leftFingers b)
          (rightFingers b) (clothing b) r.

Definition set_leftHandPose (c : Character F) (pose : FingerPose F) :=
  mkCharacter (character_vertices c) (character_indices c) (parts c)
              (currentExpression c) pose (rightHandPose c)
              (breathingOffset c) (blinkTimer c) (hairStiffness c)
              (clothStiffness c) (windForce c).

Definition set_rightHandPose (c : Character F) (pose : FingerPose F) :=
  mkCharacter (character_vertices c) (character_indices c) (parts c)
              (currentExpression c) (leftHandPose c) pose
              (breathingOffset c) (blinkTimer c) (hairStiffness c)
              (clothStiffness c) (windForce c).

(** The renderer with its hair region replaced. *)
Definition with_hair (st : CharacterRenderer F) (r : MeshRegion F) :=
  set_character st (set_parts (character st) (set_hair (parts (character st)) r)).

(** [CreateDefaultCharacter]: the head buffers are cleared, the expression
    is [FacialExpression()], the blink timer is zero (the messages on
    [std::cout] are not part of the state). *)
Definition CreateDefaultCharacter (st : CharacterRenderer F)
    : CharacterRenderer F :=
  let c := character st in
  let hd := head (parts c) in
  let hd' :=
    mkRegion [] [] (VAO hd) (VBO hd) (EBO hd) (textureId hd)
             (particles hd) (constraints hd) in
  let c1 := set_parts c (set_head (parts c) hd') in
  let c2 := set_currentExpression c1 default_expression in
  set_character st (set_blinkTimer c2 (f_lit 0 1)).

(** [LoadCharacter]: the image path is only printed. *)
Definition LoadCharacter (imagePath : String.string)
    (st : CharacterRenderer F) : CharacterRenderer F :=
  let st1 := CreateDefaultCharacter st in
  if enablePhysics st1 then
    let c := character st1 in
    let b1 := set_hair (parts c) (InitializePhysicsParticles (hair (parts c))) in
    let b2 := set_skirt b1 (InitializePhysicsParticles (skirt b1)) in
    set_character st1 (set_parts c b2)
  else st1.

Definition AnimateFingers (hand : Hand) (pose : FingerPose F)
    (st : CharacterRenderer F) : CharacterRenderer F :=
  match hand with
  | LEFT => set_character st (set_leftHandPose (character st) pose)
  | RIGHT => set_character st (set_rightHandPose (character st) pose)
  end.

(** A run of frames, as the rendering front end drives it: one
    [UpdateAnimation] per frame, each with its argument, the clock value
    and the value of [rand()] at that frame. *)
Fixpoint run_frames (libm_sin : F -> F) (M_PI : F)
    (frames : list (F * F * Z)) (st : CharacterRenderer F)
    : CharacterRenderer F :=
  match frames with
  | [] => st
  | (dt, now, rnd) :: rest =>
      run_frames libm_sin M_PI rest (UpdateAnimation libm_sin M_PI dt now rnd st)
  end.

(** The state a frame update hands to the physics: the clock difference
    stored, the idle animations run. *)
Definition idle_state (libm_sin : F -> F) (M_PI : F) (now : F) (rnd : Z)
    (st : CharacterRenderer F) : CharacterRenderer F :=
  UpdateIdleAnimations libm_sin M_PI now rnd
    (set_lastFrame (set_deltaTime st (f_sub now (lastFrame st))) now).

(** What the physics and a frame update leave alone: every region but the
    hair, the hair's constraint list and its particle and vertex counts,
    the wind and the two hand poses. *)
Definition frame_kept (st st' : CharacterRenderer F) : Prop :=
  let b := parts (character st) in
  let b' := parts (character st') in
  head b' = head b /\ leftEye b' = leftEye b /\ rightEye b' = rightEye b /\
  mouth b' = mouth b /\ leftFingers b' = leftFingers b /\
  rightFingers b' = rightFingers b /\ clothing b' = clothing b /\
  skirt b' = skirt b /\
  constraints (hair b') = constraints (hair b) /\
  length (particles (hair b')) = length (particles (hair b)) /\
  length (vertices (hair b')) = length (vertices (hair b)) /\
  windForce (character st') = windForce (character st) /\
  leftHandPose (character st') = leftHandPose (character st) /\
  rightHandPose (character st') = rightHandPose (character st).

(** *** Drawing

    The OpenGL calls of [Render], in the order they are issued.  The
    three shader handles are members of the renderer that nothing else
    in this development reads; they are arguments here. *)

Inductive GLCall :=
  | glClear
  | glUseProgram (program : Z)
  | glBindVertexArray (array : Z)
  | glDrawElements (count : nat).

Definition RenderMeshRegion (region : MeshRegion F) (shader : Z)
    : list GLCall :=
  match vertices region with
  | [] => []
  | _ :: _ =>
      [glBindVertexArray (VAO region);
       glDrawElements (length (indices region));
       glBindVertexArray 0]
  end.

(** [UpdateShaderUniforms]: the model matrix it builds is not uploaded. *)
Definition UpdateShaderUniforms (shader : Z) : list GLCall :=
  [glUseProgram shader].

Definition Render (characterShader hairShader clothShader : Z)
    (st : CharacterRenderer F) : list GLCall :=
  let b := parts (character st) in
  [glClear] ++
  [glUseProgram characterShader] ++ UpdateShaderUniforms characterShader ++
  RenderMeshRegion (head b) characterShader ++
  RenderMeshRegion (leftEye b) characterShader ++
  RenderMeshRegion (rightEye b) characterShader ++
  RenderMeshRegion (mouth b) characterShader ++
  flat_map (fun finger => RenderMeshRegion finger characterShader)
           (leftFingers b) ++
  flat_map (fun finger => RenderMeshRegion finger characterShader)
           (rightFingers b) ++
  RenderMeshRegion (clothing b) characterShader ++
  [glUseProgram hairShader] ++ UpdateShaderUniforms hairShader ++
  RenderMeshRegion (hair b) hairShader ++
  [glUseProgram clothShader] ++ UpdateShaderUniforms clothShader ++
  RenderMeshRegion (skirt b) clothShader.

(** The regions in the order [Render] visits them. *)
Definition render_order (b : BodyParts F) : list (MeshRegion F) :=
  [head b; leftEye b; rightEye b; mouth b] ++ leftFingers b ++
  rightFingers b ++ [clothing b; hair b; skirt b].

Definition has_vertices (r : MeshRegion F) : bool :=
  match vertices r with [] => false | _ :: _ => true end.

Definition draw_counts (calls : list GLCall) : list nat :=
  flat_map (fun c => match c with glDrawElements n => [n] | _ => [] end) calls.

End Loading.

(** An image path for the sample runs. *)
Module SamplePath.
Import Strings.String.
Definition image : string := "character.png"%string.
End SamplePath.

(** Two particles that differ at most in their position. *)
Definition same_but_position {F : Type} (p q : PhysicsParticle F) : Prop :=
  oldPosition q = oldPosition p /\ acceleration q = acceleration p /\
  mass q = mass p /\ pinned q = pinned p.

(** ** Engine subsystems

    [PhysicsEngine.cpp] and [Engine.cpp]: a running flag and the lines
    written to [std::cout]. *)

Module PhysicsEngine.
Import Strings.String.

Record t := mk { m_running : bool; out : list String.string }.

Definition create : t := mk false ["PhysicsEngine created"%string].

Definition initialize (e : t) : bool * t :=
  (true, mk (m_running e) (out e ++ ["PhysicsEngine initialized"%string])).

Definition start (e : t) : t :=
  mk true (out e ++ ["PhysicsEngine started"%string]).

Definition stop (e : t) : t :=
  if m_running e
  then mk false (out e ++ ["PhysicsEngine stopped"%string])
  else e.

Definition update {F : Type} (deltaTime : F) (e : t) : t :=
  if negb (m_running e) then e else e.

(** The calls a client can make, and a sequence of them. *)
Inductive call := Initialize | Start | Stop | Update.

Definition exec (e : t) (c : call) : t :=
  match c with
  | Initialize => (initialize e).2
  | Start => start e
  | Stop => stop e
  | Update => update tt e
  end.

Definition lines (msg : String.string) (e : t) : nat :=
  count_occ String.string_dec (out e) msg.

Definition started : string := "PhysicsEngine started"%string.
Definition stopped : string := "PhysicsEngine stopped"%string.

(** The [stopped] lines do not outnumber the [started] lines, and are
    fewer while the engine runs. *)
Definition balanced (e : t) : Prop :=
  (lines stopped e <= lines started e)%nat /\
  (m_running e = true -> (lines stopped e < lines started e)%nat).

End PhysicsEngine.

Module Engine.
Import Strings.String.

Record t := mk { m_running : bool; out : list String.string }.

Definition create : t := mk false ["Engine created"%string].

Definition update (e : t) : t := e.
Definition render (e : t) : t := e.

(** [run]: the loop body runs once and [break]s. *)
Definition run (e : t) : t :=
  let e1 := mk true (out e ++ ["Engine started running"%string]) in
  if m_running e1 then render (update e1) else e1.

Definition shutdown (e : t) : t :=
  if m_running e
  then mk false (out e ++ ["Engine shutdown"%string])
  else e.

Definition run_lines : list string :=
  ["Engine started running"%string; "Engine shutdown"%string].

End Engine.

(** ** Control-flow properties, for every arithmetic *)

Section Generic.
Context {F : Type} {ops : FloatOps F}.
Implicit Types (ps : list (PhysicsParticle F)) (p q : PhysicsParticle F).
Implicit Types (cs : list (Z * Z)) (c : Z * Z) (st : CharacterRenderer F).

Lemma integrate_particle_pinned wind dt p :
  pinned p = true -> integrate_particle wind dt p = p.
Proof. unfold integrate_particle. by intros ->. Qed.

Lemma integrate_particle_unpinned wind dt p :
  pinned p = false ->
  integrate_particle wind dt p =
    mkParticle
      (v3_add (position p)
         (v3_add (v3_scale (v3_sub (position p) (oldPosition p)) (f_lit 99 100))
            (v3_scale
               (v3_scale
                  (v3_add (Vec3 (f_lit 0 1) (f_opp (f_lit 981 100)) (f_lit 0 1))
                          wind) dt) dt)))
      (position p)
      (v3_add (Vec3 (f_lit 0 1) (f_opp (f_lit 981 100)) (f_lit 0 1)) wind)
      (mass p) false.
Proof. unfold integrate_particle. by intros ->. Qed.

Lemma satisfy_constraint_length ps c :
  length (satisfy_constraint ps c) = length ps.
Proof.
  unfold satisfy_constraint.
  repeat (case_match; simplify_eq; rewrite ?length_insert; try done).
Qed.

Lemma relax_length cs ps : length (relax cs ps) = length ps.
Proof.
  unfold relax. revert ps.
  induction cs as [|c cs IH]; intros ps; simpl; [done|].
  by rewrite IH, satisfy_constraint_length.
Qed.

(** A pinned particle is not written by an iteration of the constraint
    loop, whatever the constraint. *)
Lemma satisfy_constraint_pinned ps c k p :
  ps !! k = Some p -> pinned p = true ->
  satisfy_constraint ps c !! k = Some p.
Proof.
  intros Hk Hp. unfold satisfy_constraint.
  destruct (_ || _); [done|].
  destruct (ps !! Z.to_nat (to_size_t c.1)) as [p1|] eqn:H1; [|done].
  destruct (ps !! Z.to_nat (to_size_t c.2)) as [p2|] eqn:H2; [|done].
  destruct (f_ltb _ _); [|done].
  set (tr := v3_scale _ _).
  set (ps1 := if pinned p1 then ps else _).
  assert (Hps1 : ps1 !! k = Some p).
  { subst ps1. destruct (pinned p1) eqn:Hp1; [done|].
    rewrite list_lookup_insert_ne; [done|].
    intros <-. congruence. }
  clearbody ps1.
  destruct (ps1 !! Z.to_nat (to_size_t c.2)) as [q2|] eqn:H3; [|done].
  destruct (pinned q2) eqn:Hq2; [done|].
  rewrite list_lookup_insert_ne; [done|].
  intros <-. congruence.
Qed.

Lemma relax_pinned cs ps k p :
  ps !! k = Some p -> pinned p = true -> relax cs ps !! k = Some p.
Proof.
  unfold relax. revert ps.
  induction cs as [|c cs IH]; intros ps Hk Hp; simpl; [done|].
  apply IH; [|done]. by apply satisfy_constraint_pinned.
Qed.

(** Integration followed by relaxation, on the particle list. *)
Lemma advance_pinned wind dt cs ps k p :
  ps !! k = Some p -> pinned p = true ->
  relax cs (map (integrate_particle wind dt) ps) !! k = Some p.
Proof.
  intros Hk Hp. apply relax_pinned; [|done].
  rewrite list_lookup_fmap, Hk. simpl.
  by rewrite integrate_particle_pinned.
Qed.

(** The hair particles after [UpdateHairPhysics]. *)
Lemma UpdateHairPhysics_hair_particles dt st :
  particles (hair (parts (character st))) <> [] ->
  particles (hair (parts (character (UpdateHairPhysics dt st)))) =
    relax (constraints (hair (parts (character st))))
      (map (integrate_particle (windForce (character st)) dt)
           (particles (hair (parts (character st))))).
Proof.
  unfold UpdateHairPhysics.
  destruct (particles (hair (parts (character st)))); [done|]. done.
Qed.

(** [UpdateHairPhysics] only writes the hair region. *)
Lemma UpdateHairPhysics_frame dt st :
  let st' := UpdateHairPhysics dt st in
  let b := parts (character st) in
  let b' := parts (character st') in
  head b' = head b /\ leftEye b' = leftEye b /\ rightEye b' = rightEye b /\
  mouth b' = mouth b /\ leftFingers b' = leftFingers b /\
  rightFingers b' = rightFingers b /\ clothing b' = clothing b /\
  skirt b' = skirt b.
Proof.
  unfold UpdateHairPhysics.
  destruct (particles (hair (parts (character st)))); simpl; done.
Qed.

Lemma UpdateClothPhysics_cases dt st :
  UpdateClothPhysics dt st = st \/
  UpdateClothPhysics dt st = UpdateHairPhysics dt st.
Proof.
  unfold UpdateClothPhysics.
  destruct (particles (skirt (parts (character st)))); auto.
Qed.

End Generic.

(** ** Pinned particles, empty regions and the cloth update *)

Lemma set_hair_same {F : Type} (st : CharacterRenderer F) :
  set_character st
    (set_parts (character st)
       (set_hair (parts (character st)) (hair (parts (character st))))) = st.
Proof. by destruct st as [[? ? [] ? ? ? ? ? ? ? ?] ? ? ?]. Qed.

Lemma UpdateHairPhysics_writes_hair {F : Type} {ops : FloatOps F}
    (dt : F) (st : CharacterRenderer F) :
  exists region,
    UpdateHairPhysics dt st =
      set_character st
        (set_parts (character st) (set_hair (parts (character st)) region)).
Proof.
  unfold UpdateHairPhysics.
  destruct (particles (hair (parts (character st)))).
  - exists (hair (parts (character st))). by rewrite set_hair_same.
  - by eexists.
Qed.

(** C1.  A pinned particle of a physics-enabled region (hair or skirt) is
    left as it is, position and oldPosition included, by one physics
    advance: the Verlet loop of [UpdateHairPhysics] followed by
    [SatisfyConstraints] and the write-back, entered directly or through
    [UpdateClothPhysics].  This holds for every wind force, delta-time,
    constraint list and arithmetic. *)
Theorem pinned_particle_fixed {F : Type} {ops : FloatOps F}
    (sel : BodyParts F -> MeshRegion F) (dt : F) (st : CharacterRenderer F)
    (k : nat) (p : PhysicsParticle F) :
  sel = hair \/ sel = skirt ->
  particles (sel (parts (character st))) !! k = Some p ->
  pinned p = true ->
  particles (sel (parts (character (UpdateHairPhysics dt st)))) !! k = Some p /\
  particles (sel (parts (character (UpdateClothPhysics dt st)))) !! k = Some p.
Proof.
  intros Hsel Hk Hp.
  assert (Hhair :
    particles (sel (parts (character (UpdateHairPhysics dt st)))) !! k = Some p).
  { destruct Hsel as [-> | ->].
    - rewrite UpdateHairPhysics_hair_particles.
      + by apply advance_pinned.
      + intros Hnil. by rewrite Hnil in Hk.
    - destruct (UpdateHairPhysics_frame dt st) as (_&_&_&_&_&_&_&->). done. }
  split; [done|].
  destruct (UpdateClothPhysics_cases dt st) as [-> | ->]; done.
Qed.

Lemma pinned_particle_fixed_witness :
  let st := renderer_with (F := spec_float) strand empty_region
              (f_lit 0 1) (f_lit 1 60) in
  let p := point (F := spec_float) (f_lit 0 1) (f_lit 0 1) (f_lit 0 1) true in
  particles (hair (parts (character (UpdateHairPhysics (f_lit 1 60) st)))) !! 0%nat
    = Some p /\
  particles (hair (parts (character (UpdateClothPhysics (f_lit 1 60) st)))) !! 0%nat
    = Some p.
Proof.
  intros st p.
  apply (pinned_particle_fixed hair (f_lit 1 60) st 0%nat p);
    [left; reflexivity | reflexivity | reflexivity].
Defined.

(** C8.  A physics advance on a region without particles changes nothing
    in the renderer state: [UpdateHairPhysics] when the hair has no
    particle, [UpdateClothPhysics] when the skirt has none (and also
    when it delegates to an empty hair region).  The functions are total:
    there is no failure to report. *)
Theorem empty_region_noop {F : Type} {ops : FloatOps F}
    (dt : F) (st : CharacterRenderer F) :
  (particles (hair (parts (character st))) = [] ->
   UpdateHairPhysics dt st = st) /\
  (particles (skirt (parts (character st))) = [] \/
   particles (hair (parts (character st))) = [] ->
   UpdateClothPhysics dt st = st).
Proof.
  assert (H1 : particles (hair (parts (character st))) = [] ->
               UpdateHairPhysics dt st = st).
  { unfold UpdateHairPhysics. by intros ->. }
  split; [done|].
  unfold UpdateClothPhysics.
  destruct (particles (skirt (parts (character st)))); intros [?|?]; auto; done.
Qed.

Lemma empty_region_noop_witness :
  let st := renderer_with (F := spec_float) empty_region empty_region
              (f_lit 0 1) (f_lit 1 60) in
  UpdateHairPhysics (f_lit 1 60) st = st /\
  UpdateClothPhysics (f_lit 1 60) st = st.
Proof.
  intros st.
  destruct (empty_region_noop (f_lit 1 60) st) as [H1 H2].
  split; [apply H1; reflexivity | apply H2; left; reflexivity].
Defined.

(** C10.  When the skirt has particles, [UpdateClothPhysics] is
    [UpdateHairPhysics]: the skirt region (particles, vertices and all)
    is left as it is, and the whole renderer state differs from the old
    one at most in the hair region. *)
Theorem cloth_update_leaves_skirt {F : Type} {ops : FloatOps F}
    (dt : F) (st : CharacterRenderer F) :
  particles (skirt (parts (character st))) <> [] ->
  UpdateClothPhysics dt st = UpdateHairPhysics dt st /\
  skirt (parts (character (UpdateClothPhysics dt st))) =
    skirt (parts (character st)) /\
  exists region,
    UpdateClothPhysics dt st =
      set_character st
        (set_parts (character st) (set_hair (parts (character st)) region)).
Proof.
  intros Hne.
  assert (Heq : UpdateClothPhysics dt st = UpdateHairPhysics dt st).
  { unfold UpdateClothPhysics.
    by destruct (particles (skirt (parts (character st)))). }
  rewrite Heq. split; [done|]. split.
  - by destruct (UpdateHairPhysics_frame dt st) as (_&_&_&_&_&_&_&->).
  - apply UpdateHairPhysics_writes_hair.
Qed.

Lemma cloth_update_leaves_skirt_witness :
  let st := renderer_with (F := spec_float) strand strand
              (f_lit 0 1) (f_lit 1 60) in
  skirt (parts (character (UpdateClothPhysics (f_lit 1 60) st))) = strand.
Proof.
  intros st.
  apply (cloth_update_leaves_skirt (f_lit 1 60) st). discriminate.
Defined.

(** ** Skipped constraints *)

Lemma to_size_t_check {A} (l : list A) (i : Z) :
  vector_size_ok l -> int_range i ->
  (Z.of_nat (length l) <=? to_size_t i)%Z = false <->
  (0 <= i < Z.of_nat (length l))%Z.
Proof.
  unfold vector_size_ok, int_range, to_size_t. intros Hl Hi.
  rewrite Z.leb_gt.
  destruct (Z.neg_nonneg_cases i) as [Hneg | Hpos].
  - replace (i mod 2 ^ 64)%Z with (i + 2 ^ 64)%Z; [lia|].
    apply Z.mod_unique with (q := (-1)%Z); lia.
  - rewrite Z.mod_small by lia. lia.
Qed.

Lemma to_size_t_in_range (i n : Z) :
  (0 <= i < n)%Z -> (n < 2 ^ 63)%Z -> to_size_t i = i.
Proof. intros. unfold to_size_t. apply Z.mod_small. lia. Qed.

Section Skipping.
Context {F : Type} {ops : FloatOps F}.
Implicit Types (ps : list (PhysicsParticle F)) (cs : list (Z * Z)) (c : Z * Z).

Lemma relax_app cs1 cs2 ps :
  relax (cs1 ++ cs2) ps = relax cs2 (relax cs1 ps).
Proof. unfold relax. apply foldl_app. Qed.

Lemma relax_cons c cs ps :
  relax (c :: cs) ps = relax cs (satisfy_constraint ps c).
Proof. done. Qed.

(** The [continue] of the range test. *)
Lemma satisfy_constraint_out_of_range ps c :
  vector_size_ok ps -> int_range c.1 -> int_range c.2 ->
  ~ in_range ps c -> satisfy_constraint ps c = ps.
Proof.
  intros Hps H1 H2 Hout. unfold satisfy_constraint.
  destruct (_ <=? to_size_t c.1)%Z eqn:E1; [done|].
  destruct (_ <=? to_size_t c.2)%Z eqn:E2; [done|].
  apply to_size_t_check in E1; [|done..].
  apply to_size_t_check in E2; [|done..].
  destruct Hout. by split.
Qed.

(** The guard [distance > 0.0f]. *)
Lemma satisfy_constraint_coincident {laws : FloatLaws F} ps c :
  vector_size_ok ps -> in_range ps c -> coincident ps c ->
  satisfy_constraint ps c = ps.
Proof.
  intros Hps [H1 H2] (p1 & p2 & Hp1 & Hp2 & Heq). unfold satisfy_constraint.
  destruct (_ || _); [done|].
  rewrite (to_size_t_in_range c.1 (Z.of_nat (length ps))) by done.
  rewrite (to_size_t_in_range c.2 (Z.of_nat (length ps))) by done.
  rewrite Hp1, Hp2, Heq. by rewrite length_sub_self_not_pos.
Qed.

(** No iteration of the loop divides by zero. *)
Lemma satisfy_constraint_checked_total {laws : FloatLaws F} ps c :
  satisfy_constraint_checked ps c = Some (satisfy_constraint ps c).
Proof.
  unfold satisfy_constraint_checked, satisfy_constraint.
  destruct (_ || _); [done|].
  destruct (ps !! _) as [p1|]; [|done].
  destruct (ps !! _) as [p2|]; [|done].
  destruct (f_ltb _ _) eqn:Hlt; [|done].
  unfold checked_div. rewrite (pos_not_zero _ Hlt). simpl.
  repeat case_match; done.
Qed.

Lemma relax_checked_total {laws : FloatLaws F} cs ps :
  relax_checked cs ps = Some (relax cs ps).
Proof.
  revert ps. induction cs as [|c cs IH]; intros ps; simpl; [done|].
  rewrite satisfy_constraint_checked_total. simpl. by rewrite IH.
Qed.

End Skipping.

(** C7.  In a relaxation pass over [cs1 ++ c :: cs2], a constraint [c]
    whose indices are out of range for the particle count, or whose two
    endpoints are at the same position when its turn comes, changes no
    particle; the pass goes on and gives what the pass without [c] gives;
    and the pass evaluates no division by zero. *)
Theorem degenerate_constraint_skipped {F : Type} {ops : FloatOps F}
    {laws : FloatLaws F}
    (cs1 cs2 : list (Z * Z)) (c : Z * Z) (ps : list (PhysicsParticle F)) :
  vector_size_ok ps -> int_range c.1 -> int_range c.2 ->
  ~ in_range ps c \/ coincident (relax cs1 ps) c ->
  satisfy_constraint (relax cs1 ps) c = relax cs1 ps /\
  relax (cs1 ++ c :: cs2) ps = relax (cs1 ++ cs2) ps /\
  relax_checked (cs1 ++ c :: cs2) ps = Some (relax (cs1 ++ cs2) ps).
Proof.
  intros Hps H1 H2 Hc.
  assert (Hps1 : vector_size_ok (relax cs1 ps)).
  { unfold vector_size_ok. by rewrite relax_length. }
  assert (Hskip : satisfy_constraint (relax cs1 ps) c = relax cs1 ps).
  { destruct (decide (in_range (relax cs1 ps) c)) as [Hin | Hout].
    - destruct Hc as [Hout | Hco].
      + destruct Hout. unfold in_range in *.
        by rewrite relax_length in Hin.
      + by apply satisfy_constraint_coincident.
    - by apply satisfy_constraint_out_of_range. }
  assert (Hpass : relax (cs1 ++ c :: cs2) ps = relax (cs1 ++ cs2) ps).
  { by rewrite !relax_app, relax_cons, Hskip. }
  split; [done|]. split; [done|].
  by rewrite relax_checked_total, Hpass.
Qed.

(** *** The arithmetic laws hold in both instances *)

Lemma R_ltb_true (x y : R) : R_ltb x y = true <-> (x < y)%R.
Proof. unfold R_ltb. destruct (Rlt_dec x y); split; (done || lra). Qed.

Lemma R_ltb_false (x y : R) : R_ltb x y = false <-> (y <= x)%R.
Proof. unfold R_ltb. destruct (Rlt_dec x y); split; (done || lra). Qed.

Lemma R_lit_0 : R_lit 0 1 = 0%R.
Proof. unfold R_lit. lra. Qed.

#[export] Instance real_laws : FloatLaws R.
Proof.
  split.
  - intros [x y z]. apply R_ltb_false.
    unfold v3_length, v3_dot, v3_sub. simpl. rewrite R_lit_0.
    replace ((x - x) * (x - x) + (y - y) * (y - y) + (z - z) * (z - z))%R
      with 0%R by ring.
    rewrite sqrt_0. lra.
  - intros x Hx. simpl in Hx |- *. apply R_ltb_true in Hx.
    rewrite R_lit_0 in Hx |- *. unfold R_eqb.
    destruct (Req_dec_T x 0); [lra | done].
Qed.

Module Binary32Facts.
Import Binary32.

Lemma SFsub_self (x : spec_float) :
  SFsub prec emax x x = S754_zero false \/ SFsub prec emax x x = S754_nan.
Proof.
  destruct x as [[] | [] | | s m e]; simpl; auto.
  left. by rewrite Z.sub_diag.
Qed.

Lemma length_of_zero_or_nan (x y z : spec_float) :
  (x = S754_zero false \/ x = S754_nan) ->
  (y = S754_zero false \/ y = S754_nan) ->
  (z = S754_zero false \/ z = S754_nan) ->
  SFltb (lit 0 1) (v3_length (Vec3 x y z)) = false.
Proof. intros [-> | ->] [-> | ->] [-> | ->]; reflexivity. Qed.

End Binary32Facts.

#[export] Instance binary32_laws : FloatLaws spec_float.
Proof.
  split.
  - intros [x y z].
    apply Binary32Facts.length_of_zero_or_nan;
      apply Binary32Facts.SFsub_self.
  - intros x. simpl.
    destruct x as [[] | [] | | [] m e]; by vm_compute.
Qed.

Lemma degenerate_constraint_skipped_witness :
  let ps := particles (strand (F := spec_float)) in
  relax [(5, 0)%Z; (0, 1)%Z] ps = relax [(0, 1)%Z] ps /\
  relax_checked [(5, 0)%Z; (0, 1)%Z] ps = Some (relax [(0, 1)%Z] ps).
Proof.
  intros ps.
  apply (degenerate_constraint_skipped [] [(0, 1)%Z] (5, 0)%Z ps).
  - unfold vector_size_ok. simpl. lia.
  - unfold int_range. simpl. lia.
  - unfold int_range. simpl. lia.
  - left. unfold in_range. simpl. lia.
Defined.

(** ** The integration rule *)

(** Equations between real expressions built from the literals of the
    code and the decimals of the specification. *)
Ltac real_eq :=
  unfold R_lit; cbv [Q2R QArith_base.Qnum QArith_base.Qden];
  first [lra | field | nra].

Lemma integrate_particle_rule (wind : vec3 R) (dt : R) (p : PhysicsParticle R) :
  pinned p = false ->
  (position (integrate_particle wind dt p),
   oldPosition (integrate_particle wind dt p)) = Spec.integration_rule wind dt p.
Proof.
  intros Hp. rewrite integrate_particle_unpinned by done.
  unfold Spec.integration_rule, Spec.gravity, Spec.damping.
  destruct p as [[px py pz] [ox oy oz] a m b], wind as [wx wy wz].
  unfold v3_add, v3_sub, v3_scale. simpl.
  f_equal. f_equal; real_eq.
Qed.

(** C2.  The Verlet loop of [UpdateHairPhysics] replaces every unpinned
    particle by the one the integration rule gives: new position
    [position + velocity * 0.99 + acceleration * dt^2] with
    [velocity = position - oldPosition] and
    [acceleration = (0, -9.81, 0) + windForce], and [oldPosition] set to
    the position before the step; the particle list so obtained is the one
    [UpdateHairPhysics] hands to the constraint pass.  Arithmetic is
    exact. *)
Theorem verlet_step_rule (st : CharacterRenderer R) (dt : R) (k : nat)
    (p : PhysicsParticle R) :
  particles (hair (parts (character st))) !! k = Some p ->
  pinned p = false ->
  let wind := windForce (character st) in
  let stepped :=
    map (integrate_particle wind dt) (particles (hair (parts (character st)))) in
  (exists p',
     stepped !! k = Some p' /\
     (position p', oldPosition p') = Spec.integration_rule wind dt p /\
     acceleration p' = v3_add Spec.gravity wind) /\
  particles (hair (parts (character (UpdateHairPhysics dt st)))) =
    relax (constraints (hair (parts (character st)))) stepped.
Proof.
  intros Hk Hp wind stepped. split.
  - exists (integrate_particle wind dt p). split; [|split].
    + subst stepped. by rewrite list_lookup_fmap, Hk.
    + by apply integrate_particle_rule.
    + rewrite integrate_particle_unpinned by done. simpl.
      unfold Spec.gravity, v3_add. simpl.
      f_equal; real_eq.
  - apply UpdateHairPhysics_hair_particles.
    intros Hnil. by rewrite Hnil in Hk.
Qed.

Lemma verlet_step_rule_witness :
  let st := renderer_with (F := R) strand empty_region 0%R (1 / 60)%R in
  exists p',
    map (integrate_particle (windForce (character st)) (1 / 60)%R)
        (particles (hair (parts (character st)))) !! 1%nat = Some p' /\
    (position p', oldPosition p') =
      Spec.integration_rule (windForce (character st)) (1 / 60)%R
        (point (f_lit 0 1) (f_lit (-1) 1) (f_lit 0 1) false) /\
    acceleration p' = v3_add Spec.gravity (windForce (character st)).
Proof.
  intros st.
  apply (verlet_step_rule st (1 / 60)%R 1%nat
           (point (f_lit 0 1) (f_lit (-1) 1) (f_lit 0 1) false));
    reflexivity.
Defined.

(** ** The emotion table *)

(** C5.  The expression that [SetEmotion] builds and passes on to
    [AnimateFacialExpression] is the one of the emotion table:
    HAPPY at 0.5 gives smileIntensity 0.5 and eyeOpenness 1.1; SURPRISED
    at 1.0 gives eyeOpenness 1.5, browRaise 0.6 and mouthOpenness 0.3.
    This holds in exact arithmetic and, with every number read as the
    nearest [float], in binary32.  The current expression takes these
    values when the stored frame time makes the blend factor
    [deltaTime * 2] equal to 1. *)
Theorem emotion_table_exact :
  (forall cur : FacialExpression R,
     let happy := SetEmotion_expression HAPPY 0.5%R cur in
     let surprised := SetEmotion_expression SURPRISED 1%R cur in
     smileIntensity happy = 0.5%R /\ eyeOpenness happy = 1.1%R /\
     eyeOpenness surprised = 1.5%R /\ browRaise surprised = 0.6%R /\
     mouthOpenness surprised = 0.3%R) /\
  (forall cur : FacialExpression spec_float,
     let happy := SetEmotion_expression HAPPY (f_lit 5 10) cur in
     let surprised := SetEmotion_expression SURPRISED (f_lit 1 1) cur in
     smileIntensity happy = f_lit 5 10 /\ eyeOpenness happy = f_lit 11 10 /\
     eyeOpenness surprised = f_lit 15 10 /\ browRaise surprised = f_lit 6 10 /\
     mouthOpenness surprised = f_lit 3 10) /\
  (forall st : CharacterRenderer R,
     deltaTime st = 0.5%R ->
     let happy := currentExpression (character (SetEmotion HAPPY 0.5%R st)) in
     let surprised :=
       currentExpression (character (SetEmotion SURPRISED 1%R st)) in
     smileIntensity happy = 0.5%R /\ eyeOpenness happy = 1.1%R /\
     eyeOpenness surprised = 1.5%R /\ browRaise surprised = 0.6%R /\
     mouthOpenness surprised = 0.3%R).
Proof.
  split; [|split].
  - intros cur. simpl. repeat split; real_eq.
  - intros cur. repeat split; vm_compute; reflexivity.
  - intros st Hdt. simpl. rewrite Hdt. unfold glm_mix. simpl.
    repeat split; real_eq.
Qed.

Lemma emotion_table_exact_witness :
  let st := renderer_with (F := R) empty_region empty_region 0%R 0.5%R in
  smileIntensity (currentExpression (character (SetEmotion HAPPY 0.5%R st)))
    = 0.5%R.
Proof.
  intros st.
  destruct emotion_table_exact as (_ & _ & H).
  apply (H st). reflexivity.
Defined.

(** C3 (the code departs from the claim).  [SetEmotion] clamps the
    intensity it stores in the target expression, but the emotion table
    is evaluated on the intensity as passed.  In binary32, with a stored
    frame time of 0.5: intensity 2.0 clamps to 1.0, yet [SetEmotion] at
    2.0 leaves smileIntensity 2.0 and eyeOpenness 1.4 where [SetEmotion]
    at 1.0 leaves 1.0 and 1.2; the two results differ at a stored frame
    time of 1/60 as well. *)
Theorem SetEmotion_table_ignores_clamp :
  let st := renderer_with (F := spec_float) empty_region empty_region
              (f_lit 0 1) (f_lit 5 10) in
  let cur := currentExpression (character st) in
  let raw := f_lit 2 1 in
  let clamped := glm_clamp raw (f_lit 0 1) (f_lit 1 1) in
  clamped = f_lit 1 1 /\
  intensity (SetEmotion_expression HAPPY raw cur) = f_lit 1 1 /\
  smileIntensity (SetEmotion_expression HAPPY raw cur) = f_lit 2 1 /\
  smileIntensity (SetEmotion_expression HAPPY clamped cur) = f_lit 1 1 /\
  smileIntensity (currentExpression (character (SetEmotion HAPPY raw st)))
    = f_lit 2 1 /\
  smileIntensity (currentExpression (character (SetEmotion HAPPY clamped st)))
    = f_lit 1 1 /\
  eyeOpenness (currentExpression (character (SetEmotion HAPPY raw st)))
    = f_lit 14 10 /\
  eyeOpenness (currentExpression (character (SetEmotion HAPPY clamped st)))
    = f_lit 12 10 /\
  SetEmotion HAPPY raw st <> SetEmotion HAPPY clamped st /\
  let st60 := renderer_with (F := spec_float) empty_region empty_region
                (f_lit 0 1) (f_lit 1 60) in
  SetEmotion HAPPY raw st60 <> SetEmotion HAPPY clamped st60.
Proof.
  repeat split; try (vm_compute; reflexivity); vm_compute; discriminate.
Qed.

(** ** Expression blending *)

Section ExpressionFrame.
Context {F : Type} {ops : FloatOps F}.
Implicit Types st : CharacterRenderer F.

Lemma UpdateHairPhysics_expression dt st :
  currentExpression (character (UpdateHairPhysics dt st)) =
  currentExpression (character st).
Proof.
  unfold UpdateHairPhysics.
  by destruct (particles (hair (parts (character st)))).
Qed.

Lemma UpdateClothPhysics_expression dt st :
  currentExpression (character (UpdateClothPhysics dt st)) =
  currentExpression (character st).
Proof.
  destruct (UpdateClothPhysics_cases dt st) as [-> | ->]; [done|].
  apply UpdateHairPhysics_expression.
Qed.

Lemma UpdateIdleAnimations_expression libm_sin M_PI time rnd st :
  let e := currentExpression (character st) in
  let e' :=
    currentExpression (character (UpdateIdleAnimations libm_sin M_PI time rnd st)) in
  e' = e \/ e' = set_eyeOpenness e (f_lit 1 10).
Proof.
  unfold UpdateIdleAnimations. simpl.
  destruct (blink_fires _ _); simpl; auto.
Qed.

(** A frame update touches the current expression only through a blink. *)
Lemma UpdateAnimation_expression libm_sin M_PI dt now rnd st :
  let e := currentExpression (character st) in
  let e' :=
    currentExpression (character (UpdateAnimation libm_sin M_PI dt now rnd st)) in
  e' = e \/ e' = set_eyeOpenness e (f_lit 1 10).
Proof.
  unfold UpdateAnimation, ApplyMorphTargets.
  set (st3 := set_lastFrame _ _).
  assert (He : currentExpression (character st3) =
               currentExpression (character st)) by done.
  cbv zeta. rewrite <- He.
  destruct (enablePhysics _).
  - rewrite UpdateClothPhysics_expression, UpdateHairPhysics_expression.
    apply UpdateIdleAnimations_expression.
  - apply UpdateIdleAnimations_expression.
Qed.

Lemma UpdateHairPhysics_deltaTime dt st :
  deltaTime (UpdateHairPhysics dt st) = deltaTime st.
Proof.
  unfold UpdateHairPhysics.
  by destruct (particles (hair (parts (character st)))).
Qed.

Lemma UpdateClothPhysics_deltaTime dt st :
  deltaTime (UpdateClothPhysics dt st) = deltaTime st.
Proof.
  destruct (UpdateClothPhysics_cases dt st) as [-> | ->]; [done|].
  apply UpdateHairPhysics_deltaTime.
Qed.

Lemma UpdateIdleAnimations_deltaTime libm_sin M_PI time rnd st :
  deltaTime (UpdateIdleAnimations libm_sin M_PI time rnd st) = deltaTime st.
Proof.
  unfold UpdateIdleAnimations. simpl. by destruct (blink_fires _ _).
Qed.

Lemma UpdateHairPhysics_blinkTimer dt st :
  blinkTimer (character (UpdateHairPhysics dt st)) = blinkTimer (character st).
Proof.
  unfold UpdateHairPhysics.
  by destruct (particles (hair (parts (character st)))).
Qed.

Lemma UpdateClothPhysics_blinkTimer dt st :
  blinkTimer (character (UpdateClothPhysics dt st)) = blinkTimer (character st).
Proof.
  destruct (UpdateClothPhysics_cases dt st) as [-> | ->]; [done|].
  apply UpdateHairPhysics_blinkTimer.
Qed.

(** For the blink, a frame update is [UpdateIdleAnimations] at the clock
    difference. *)
Lemma UpdateAnimation_blink libm_sin M_PI dt now rnd st :
  let st3 := set_lastFrame (set_deltaTime st (f_sub now (lastFrame st))) now in
  let idle := UpdateIdleAnimations libm_sin M_PI now rnd st3 in
  let st' := UpdateAnimation libm_sin M_PI dt now rnd st in
  blinkTimer (character st') = blinkTimer (character idle) /\
  currentExpression (character st') = currentExpression (character idle).
Proof.
  unfold UpdateAnimation, ApplyMorphTargets. cbv zeta.
  destruct (enablePhysics _);
    rewrite ?UpdateClothPhysics_blinkTimer, ?UpdateHairPhysics_blinkTimer,
      ?UpdateClothPhysics_expression, ?UpdateHairPhysics_expression; done.
Qed.

(** The frame time a frame update stores is the clock difference, not its
    argument. *)
Lemma UpdateAnimation_deltaTime libm_sin M_PI dt now rnd st :
  deltaTime (UpdateAnimation libm_sin M_PI dt now rnd st) =
  f_sub now (lastFrame st).
Proof.
  unfold UpdateAnimation, ApplyMorphTargets. cbv zeta.
  destruct (enablePhysics _);
    rewrite ?UpdateClothPhysics_deltaTime, ?UpdateHairPhysics_deltaTime,
      UpdateIdleAnimations_deltaTime; done.
Qed.

End ExpressionFrame.

Lemma glm_mix_moves_toward (x y a : R) :
  (0 < a <= 1)%R -> Spec.moves_toward x (glm_mix x y a) y.
Proof.
  intros [Ha0 Ha1]. unfold Spec.moves_toward, glm_mix. simpl.
  split; intros Hxy; (split; [split|]); try intros Hlt; nra.
Qed.

(** In exact arithmetic, with a stored frame time of 1/4,
    [SetEmotion(HAPPY, 1)] on the default expression requests the target
    smileIntensity 1 and leaves the current one at 1/2; the frame update
    that follows (frame time 1/4 > 0, no blink) leaves it at 1/2: it has
    not moved toward the target.  And with a stored frame time of 1 the
    blend inside [SetEmotion] itself goes past the target, to 2. *)
Lemma frame_update_does_not_blend :
  let st0 := renderer_with (F := R) empty_region empty_region 0%R (1 / 4)%R in
  let target :=
    SetEmotion_expression HAPPY 1%R (currentExpression (character st0)) in
  let st1 := SetEmotion HAPPY 1%R st0 in
  let st2 := UpdateAnimation sin PI (1 / 4)%R (1 / 4)%R 0%Z st1 in
  let smile1 := smileIntensity (currentExpression (character st1)) in
  let smile2 := smileIntensity (currentExpression (character st2)) in
  (0 < deltaTime st2)%R /\
  smileIntensity target = 1%R /\ smile1 = (1 / 2)%R /\ smile2 = (1 / 2)%R /\
  ~ Spec.moves_toward smile1 smile2 (smileIntensity target) /\
  let st0' := renderer_with (F := R) empty_region empty_region 0%R 1%R in
  smileIntensity (currentExpression (character (SetEmotion HAPPY 1%R st0')))
    = 2%R.
Proof.
  intros st0 target st1 st2 smile1 smile2.
  assert (H1 : smile1 = (1 / 2)%R).
  { subst smile1 st1 st0. simpl. unfold glm_mix. simpl. real_eq. }
  assert (H2 : smile2 = smile1).
  { subst smile2 smile1 st2.
    pose proof (UpdateAnimation_expression sin PI (1 / 4)%R (1 / 4)%R 0%Z st1)
      as He.
    cbv zeta in He. destruct He as [He | He]; by rewrite He. }
  assert (Ht : smileIntensity target = 1%R) by done.
  split; [|split; [|split; [|split; [|split]]]].
  - subst st2. rewrite UpdateAnimation_deltaTime. simpl. real_eq.
  - done.
  - done.
  - by rewrite H2.
  - rewrite H2, H1, Ht. unfold Spec.moves_toward. intros [Hup _].
    destruct Hup as [_ Hstrict]; lra.
  - simpl. unfold glm_mix. simpl. real_eq.
Qed.

(** The one blend the code performs, in exact arithmetic.  It happens
    inside the request ([SetEmotion] is [AnimateFacialExpression] on the
    table's expression): each of the four facial parameters becomes
    [mix(current, target, deltaTime * 2)] with the stored frame time, and
    when [0 < deltaTime * 2 <= 1] it lies between the old value and the
    target, strictly nearer to the target unless it was there.  A frame
    update afterwards does not blend: it keeps mouthOpenness,
    smileIntensity and browRaise, and keeps eyeOpenness unless a blink
    sets it to 0.1. *)
Theorem blend_happens_on_request (target : FacialExpression R)
    (st : CharacterRenderer R) :
  (0 < deltaTime st * 2 <= 1)%R ->
  let cur := currentExpression (character st) in
  let st' := AnimateFacialExpression target st in
  let cur' := currentExpression (character st') in
  (Spec.moves_toward (eyeOpenness cur) (eyeOpenness cur') (eyeOpenness target) /\
   Spec.moves_toward (mouthOpenness cur) (mouthOpenness cur')
     (mouthOpenness target) /\
   Spec.moves_toward (smileIntensity cur) (smileIntensity cur')
     (smileIntensity target) /\
   Spec.moves_toward (browRaise cur) (browRaise cur') (browRaise target)) /\
  (forall emotion i,
     SetEmotion emotion i st =
       AnimateFacialExpression (SetEmotion_expression emotion i cur) st) /\
  (forall libm_sin M_PI dt now rnd,
     let cur'' :=
       currentExpression
         (character (UpdateAnimation libm_sin M_PI dt now rnd st')) in
     mouthOpenness cur'' = mouthOpenness cur' /\
     smileIntensity cur'' = smileIntensity cur' /\
     browRaise cur'' = browRaise cur' /\
     (eyeOpenness cur'' = eyeOpenness cur' \/ eyeOpenness cur'' = 0.1%R)).
Proof.
  intros Hf cur st' cur'.
  assert (Ha : (0 < deltaTime st * R_lit 2 1 <= 1)%R) by (unfold R_lit; lra).
  split; [|split].
  - split; [|split; [|split]]; apply (glm_mix_moves_toward _ _ _ Ha).
  - done.
  - intros libm_sin M_PI dt now rnd cur''.
    pose proof (UpdateAnimation_expression libm_sin M_PI dt now rnd st')
      as He.
    cbv zeta in He. subst cur'' cur'. destruct He as [He | He]; rewrite He.
    + auto.
    + simpl. repeat split; try done. right. real_eq.
Qed.

Lemma blend_happens_on_request_witness :
  let st := renderer_with (F := R) empty_region empty_region 0%R (1 / 4)%R in
  let target := SetEmotion_expression HAPPY 1%R (currentExpression (character st)) in
  Spec.moves_toward (smileIntensity (currentExpression (character st)))
    (smileIntensity
       (currentExpression (character (AnimateFacialExpression target st))))
    (smileIntensity target).
Proof.
  intros st target.
  apply (blend_happens_on_request target st).
  simpl. lra.
Defined.

Lemma run_frames_smile_kept {F : Type} {ops : FloatOps F}
    (libm_sin : F -> F) (M_PI : F) (frames : list (F * F * Z))
    (st : CharacterRenderer F) :
  smileIntensity
    (currentExpression (character (run_frames libm_sin M_PI frames st))) =
  smileIntensity (currentExpression (character st)).
Proof.
  revert st. induction frames as [|[[dt now] rnd] rest IH]; intros st;
    simpl; [done|].
  rewrite IH.
  pose proof (UpdateAnimation_expression libm_sin M_PI dt now rnd st) as He.
  cbv zeta in He. by destruct He as [-> | ->].
Qed.

(** C4 (the code departs from the claim).  In binary32, at 60 frames per
    second (stored frame time 1/60): [SetEmotion(HAPPY, 1)] on the default
    expression requests the target smileIntensity 1 and, by its single
    blend, leaves the current smileIntensity at 2/60; after any run of
    frame updates that follows, whatever the clock, [rand()] and the sine
    return, the smileIntensity is still 2/60, below the target.  No frame
    update moves it toward the target, although [AnimateFacialExpression]
    announces a transition of 2 seconds and [UpdateAnimation] the
    application of pending expression changes.  And with a stored frame
    time of 1 the blend inside [SetEmotion] goes past the target, to 2. *)
Theorem frame_updates_never_blend
    (libm_sin : spec_float -> spec_float) (M_PI : spec_float)
    (frames : list (spec_float * spec_float * Z)) :
  let st0 := renderer_with (F := spec_float) empty_region empty_region
               (f_lit 0 1) (f_lit 1 60) in
  let target :=
    SetEmotion_expression HAPPY (f_lit 1 1) (currentExpression (character st0)) in
  let st1 := SetEmotion HAPPY (f_lit 1 1) st0 in
  let smile st := smileIntensity (currentExpression (character st)) in
  smile st0 = f_lit 0 1 /\
  smileIntensity target = f_lit 1 1 /\
  smile st1 = f_mul (f_lit 1 60) (f_lit 2 1) /\
  smile (run_frames libm_sin M_PI frames st1) = smile st1 /\
  f_ltb (smile (run_frames libm_sin M_PI frames st1)) (smileIntensity target)
    = true /\
  let st0' := renderer_with (F := spec_float) empty_region empty_region
                (f_lit 0 1) (f_lit 1 1) in
  smile (SetEmotion HAPPY (f_lit 1 1) st0') = f_lit 2 1 /\
  f_ltb (smileIntensity target) (smile (SetEmotion HAPPY (f_lit 1 1) st0'))
    = true.
Proof.
  intros st0 target st1 smile.
  assert (Hrun : smile (run_frames libm_sin M_PI frames st1) = smile st1)
    by apply run_frames_smile_kept.
  split; [reflexivity|]. split; [reflexivity|].
  split; [vm_compute; reflexivity|]. split; [exact Hrun|].
  split; [rewrite Hrun; vm_compute; reflexivity|].
  split; vm_compute; reflexivity.
Qed.

(** ** Blinking *)

Lemma rand_mod_3 (rnd : Z) :
  (0 <= rnd)%Z -> (0 <= IZR (Z.rem rnd 3) <= 2)%R.
Proof.
  intros Hr. destruct (Z.rem_bound_pos rnd 3) as [H0 H3]; [lia..|].
  split; [apply (IZR_le 0) | apply (IZR_le _ 2)]; lia.
Qed.

Lemma blink_fires_iff (timer : R) (rnd : Z) :
  blink_fires timer rnd = true <-> (3 + IZR (Z.rem rnd 3) < timer)%R.
Proof.
  unfold blink_fires. simpl. rewrite R_ltb_true. unfold R_lit.
  split; intros; lra.
Qed.

(** [UpdateIdleAnimations], with the timer after [+= deltaTime] named. *)
Lemma UpdateIdleAnimations_unfold (libm_sin : R -> R) (M_PI time : R)
    (rnd : Z) (st : CharacterRenderer R) :
  let acc := (blinkTimer (character st) + deltaTime st)%R in
  let st2 :=
    set_character st
      (set_blinkTimer
         (set_breathingOffset (character st)
            (Vec3 (vx (breathingOffset (character st)))
                  (libm_sin (time * R_lit 25 100 * R_lit 2 1 * M_PI)
                     * R_lit 2 100)%R
                  (vz (breathingOffset (character st))))) acc) in
  UpdateIdleAnimations libm_sin M_PI time rnd st =
    if blink_fires acc rnd
    then set_character (TriggerBlink st2)
           (set_blinkTimer (character (TriggerBlink st2)) (R_lit 0 1))
    else st2.
Proof. reflexivity. Qed.

(** C9, where the claim fails.  The timer is only tested once per frame:
    a frame that arrives 10 seconds after the previous one (timer at 0)
    brings the accumulated time to 10, and that is when the blink fires
    (eyes to 0.1, timer back to 0), later than 6 accumulated seconds. *)
Lemma blink_after_long_frame :
  let st0 := renderer_with (F := R) empty_region empty_region 0%R 0%R in
  let st1 := UpdateAnimation sin PI 10%R 10%R 0%Z st0 in
  let acc := (blinkTimer (character st0) + (10 - lastFrame st0))%R in
  acc = 10%R /\ blink_fires acc 0 = true /\
  eyeOpenness (currentExpression (character st0)) = 1%R /\
  eyeOpenness (currentExpression (character st1)) = 0.1%R /\
  blinkTimer (character st1) = 0%R.
Proof.
  intros st0 st1 acc.
  assert (Hacc : acc = 10%R) by (subst acc st0; simpl; real_eq).
  assert (Hf : blink_fires acc 0 = true).
  { apply blink_fires_iff. rewrite Hacc. change (Z.rem 0 3) with 0%Z. lra. }
  destruct (UpdateAnimation_blink sin PI 10%R 10%R 0%Z st0) as [Ht He].
  fold st1 in Ht, He. rewrite Ht, He, UpdateIdleAnimations_unfold.
  cbv zeta.
  change (blinkTimer _ + deltaTime _)%R with acc.
  rewrite Hf.
  repeat split; try done; simpl; real_eq.
Qed.

(** C9, as amended.  One call of [UpdateIdleAnimations], for every value
    [rand()] can return: with [acc] the blink timer after the frame time
    has been added, a blink fires only if [acc] is above 3 seconds and
    fires for certain when [acc] is above 5; a firing blink closes the
    eyes to 0.1 and sets the timer to zero, otherwise the timer keeps
    [acc] and the expression is untouched.  The timer is therefore at
    most 5 after every call, and when the frame time is at most one
    second a blink fires with at most 6 seconds accumulated. *)
Theorem blink_window (libm_sin : R -> R) (M_PI time : R) (rnd : Z)
    (st : CharacterRenderer R) :
  (0 <= rnd)%Z ->
  let acc := (blinkTimer (character st) + deltaTime st)%R in
  let st' := UpdateIdleAnimations libm_sin M_PI time rnd st in
  (blink_fires acc rnd = true ->
     (3 < acc)%R /\ blinkTimer (character st') = 0%R /\
     eyeOpenness (currentExpression (character st')) = 0.1%R) /\
  (blink_fires acc rnd = false ->
     (acc <= 5)%R /\ blinkTimer (character st') = acc /\
     currentExpression (character st') = currentExpression (character st)) /\
  ((5 < acc)%R -> blink_fires acc rnd = true) /\
  (blinkTimer (character st') <= 5)%R /\
  ((blinkTimer (character st) <= 5)%R -> (deltaTime st <= 1)%R ->
   (acc <= 6)%R).
Proof.
  intros Hr acc st'. pose proof (rand_mod_3 rnd Hr) as Hm.
  subst st'. rewrite UpdateIdleAnimations_unfold. cbv zeta. fold acc.
  destruct (blink_fires acc rnd) eqn:Hf.
  - apply blink_fires_iff in Hf. simpl.
    repeat split; try done; try real_eq; subst acc; lra.
  - assert (Hacc : (acc <= 3 + IZR (Z.rem rnd 3))%R).
    { apply Rnot_lt_le. intros Hlt. apply blink_fires_iff in Hlt. congruence. }
    simpl. repeat split; try done; try lra; subst acc; lra.
Qed.

Lemma blink_window_witness :
  let st := renderer_with (F := R) empty_region empty_region 5.5%R 0.5%R in
  blink_fires (5.5 + 0.5)%R 7 = true.
Proof.
  intros st.
  refine (proj1 (proj2 (proj2 (blink_window sin PI 0%R 7%Z st _))) _).
  - lia.
  - simpl. lra.
Defined.

(** Over any run of frame updates the blink timer is at most 5 between
    frames, whatever the clock and [rand()] return. *)
Lemma blink_timer_bounded (libm_sin : R -> R) (M_PI dt now : R) (rnd : Z)
    (st : CharacterRenderer R) :
  (0 <= rnd)%Z ->
  (blinkTimer (character (UpdateAnimation libm_sin M_PI dt now rnd st)) <= 5)%R.
Proof.
  intros Hr. pose proof (rand_mod_3 rnd Hr) as Hm.
  destruct (UpdateAnimation_blink libm_sin M_PI dt now rnd st) as [-> _].
  rewrite UpdateIdleAnimations_unfold. cbv zeta.
  set (acc := (blinkTimer _ + deltaTime _)%R).
  destruct (blink_fires acc rnd) eqn:Hf; simpl.
  - real_eq.
  - apply Rnot_lt_le. intros Hlt.
    assert (blink_fires acc rnd = true) by (apply blink_fires_iff; lra).
    congruence.
Qed.

(** ** Convergence of a single constraint *)

Section View.
Context {F : Type} {ops : FloatOps F}.

Lemma satisfy_constraint_in_range (ps : list (PhysicsParticle F)) (i j : nat)
    (p1 p2 : PhysicsParticle F) :
  vector_size_ok ps -> ps !! i = Some p1 -> ps !! j = Some p2 ->
  satisfy_constraint ps (Z.of_nat i, Z.of_nat j) =
    let delta := v3_sub (position p2) (position p1) in
    let distance := v3_length delta in
    if f_ltb (f_lit 0 1) distance then
      let translate :=
        v3_scale
          (v3_scale delta (f_div (f_sub (f_lit 1 10) distance) distance))
          (f_lit 5 10) in
      let ps1 :=
        if pinned p1 then ps
        else <[i := set_position p1 (v3_sub (position p1) translate)]> ps in
      match ps1 !! j with
      | Some q2 =>
          if pinned q2 then ps1
          else <[j := set_position q2 (v3_add (position q2) translate)]> ps1
      | None => ps1
      end
    else ps.
Proof.
  intros Hps H1 H2. unfold satisfy_constraint. cbn [fst snd].
  pose proof (lookup_lt_Some _ _ _ H1) as Hi.
  pose proof (lookup_lt_Some _ _ _ H2) as Hj.
  unfold vector_size_ok in Hps.
  rewrite (to_size_t_in_range (Z.of_nat i) (Z.of_nat (length ps))) by lia.
  rewrite (to_size_t_in_range (Z.of_nat j) (Z.of_nat (length ps))) by lia.
  rewrite !Nat2Z.id, H1, H2.
  replace (Z.of_nat (length ps) <=? Z.of_nat i)%Z with false
    by (symmetry; apply Z.leb_gt; lia).
  replace (Z.of_nat (length ps) <=? Z.of_nat j)%Z with false
    by (symmetry; apply Z.leb_gt; lia).
  done.
Qed.
End View.

Section TwoParticles.
Local Open Scope R_scope.

Lemma v3_length_sym (u v : vec3 R) :
  v3_length (v3_sub u v) = v3_length (v3_sub v u).
Proof.
  unfold v3_length, v3_dot, v3_sub. simpl. f_equal. ring.
Qed.

Lemma v3_length_scaled (k : R) (v : vec3 R) :
  0 <= k ->
  v3_length (Vec3 (k * vx v) (k * vy v) (k * vz v)) = k * v3_length v.
Proof.
  intros Hk. unfold v3_length, v3_dot. simpl.
  replace (k * vx v * (k * vx v) + k * vy v * (k * vy v) + k * vz v * (k * vz v))
    with (k * k * (vx v * vx v + vy v * vy v + vz v * vz v)) by ring.
  rewrite sqrt_mult_alt by nra.
  by rewrite sqrt_square.
Qed.

(** The separation after a correction that multiplies the difference
    vector by [(d + L) / (2 d)]. *)
Lemma corrected_length (u w : vec3 R) (d : R) :
  d = v3_length u -> 0 < d ->
  vx w = (vx u + vx u * ((R_lit 1 10 - d) / d) * R_lit 5 10) ->
  vy w = (vy u + vy u * ((R_lit 1 10 - d) / d) * R_lit 5 10) ->
  vz w = (vz u + vz u * ((R_lit 1 10 - d) / d) * R_lit 5 10) ->
  v3_length w = (d + 0.1) / 2.
Proof.
  intros Hd Hpos Hx Hy Hz.
  set (k := (d + 1 / 10) / (2 * d)).
  assert (Hk : 0 <= k).
  { unfold k. apply Rlt_le, Rdiv_lt_0_compat; lra. }
  replace w with (Vec3 (k * vx u) (k * vy u) (k * vz u)).
  - rewrite v3_length_scaled by done. rewrite <- Hd. unfold k.
    cbv [Q2R QArith_base.Qnum QArith_base.Qden]. field. lra.
  - destruct w as [wx wy wz]. simpl in Hx, Hy, Hz. subst wx wy wz.
    unfold k, R_lit. f_equal; field; lra.
Qed.

Lemma one_pass (a b : PhysicsParticle R) (c : Z * Z) :
  xorb (pinned a) (pinned b) = true ->
  c = (0, 1)%Z \/ c = (1, 0)%Z ->
  0 < Spec.separation [a; b] ->
  exists a' b',
    relax [c] [a; b] = [a'; b'] /\
    pinned a' = pinned a /\ pinned b' = pinned b /\
    Spec.separation [a'; b'] = (Spec.separation [a; b] + 0.1) / 2.
Proof.
  intros Hpin Hc Hd. unfold relax. simpl foldl.
  assert (Hok : vector_size_ok [a; b]) by (unfold vector_size_ok; simpl; lia).
  unfold Spec.separation in Hd |- *.
  destruct Hc as [-> | ->].
  - change (0, 1)%Z with (Z.of_nat 0, Z.of_nat 1).
    rewrite (satisfy_constraint_in_range [a; b] 0 1 a b Hok eq_refl eq_refl).
    cbv zeta. set (delta := v3_sub (position b) (position a)) in *.
    set (d := v3_length delta) in *.
    change (f_ltb (f_lit 0 1) d) with (R_ltb (R_lit 0 1) d).
    rewrite (proj2 (R_ltb_true _ _)) by (unfold R_lit; lra).
    destruct (pinned a) eqn:Ha, (pinned b) eqn:Hb; try discriminate;
      cbn -[v3_length v3_sub v3_add v3_scale].
    + rewrite Hb. eexists _, _. split; [reflexivity|]. cbn -[v3_length v3_sub v3_add v3_scale].
      split; [done|]. split; [done|].
      apply (corrected_length delta); try done; subst delta;
        destruct a as [[] ? ? ? ?], b as [[] ? ? ? ?]; simpl; ring.
    + rewrite Hb. eexists _, _. split; [reflexivity|]. cbn -[v3_length v3_sub v3_add v3_scale].
      split; [done|]. split; [done|].
      apply (corrected_length delta); try done; subst delta;
        destruct a as [[] ? ? ? ?], b as [[] ? ? ? ?]; simpl; ring.
  - change (1, 0)%Z with (Z.of_nat 1, Z.of_nat 0).
    rewrite (satisfy_constraint_in_range [a; b] 1 0 b a Hok eq_refl eq_refl).
    cbv zeta. rewrite (v3_length_sym (position a) (position b)).
    set (d := v3_length (v3_sub (position b) (position a))) in *.
    change (f_ltb (f_lit 0 1) d) with (R_ltb (R_lit 0 1) d).
    rewrite (proj2 (R_ltb_true _ _)) by (unfold R_lit; lra).
    destruct (pinned a) eqn:Ha, (pinned b) eqn:Hb; try discriminate;
      cbn -[v3_length v3_sub v3_add v3_scale].
    + rewrite Ha. eexists _, _. split; [reflexivity|]. cbn -[v3_length v3_sub v3_add v3_scale].
      split; [done|]. split; [done|].
      apply (corrected_length (v3_sub (position b) (position a))); try done;
        destruct a as [[] ? ? ? ?], b as [[] ? ? ? ?]; simpl; ring.
    + rewrite Ha. eexists _, _. split; [reflexivity|]. cbn -[v3_length v3_sub v3_add v3_scale].
      split; [done|]. split; [done|].
      apply (corrected_length (v3_sub (position b) (position a))); try done;
        destruct a as [[] ? ? ? ?], b as [[] ? ? ? ?]; simpl; ring.
Qed.

Lemma passes_succ (cs : list (Z * Z)) (n : nat) (ps : list (PhysicsParticle R)) :
  Spec.passes cs (S n) ps = relax cs (Spec.passes cs n ps).
Proof. done. Qed.

Lemma passes_two (a b : PhysicsParticle R) (c : Z * Z) (n : nat) :
  xorb (pinned a) (pinned b) = true ->
  c = (0, 1)%Z \/ c = (1, 0)%Z ->
  0 < Spec.separation [a; b] ->
  exists a' b',
    Spec.passes [c] n [a; b] = [a'; b'] /\
    pinned a' = pinned a /\ pinned b' = pinned b /\
    0 < Spec.separation [a'; b'] /\
    Spec.separation [a'; b'] - 0.1 = (Spec.separation [a; b] - 0.1) / 2 ^ n.
Proof.
  intros Hpin Hc Hd. induction n as [|n (a' & b' & Hn & Ha & Hb & Hpos & Herr)].
  - exists a, b. repeat split; try done. simpl. lra.
  - destruct (one_pass a' b' c) as (a2 & b2 & Hrel & Ha2 & Hb2 & Hsep);
      [by rewrite Ha, Hb | done | done |].
    exists a2, b2. rewrite passes_succ, Hn, Hrel.
    split; [done|]. split; [congruence|]. split; [congruence|].
    rewrite Hsep.
    assert (H01 : 0.1 = 1 / 10)
      by (cbv [Q2R QArith_base.Qnum QArith_base.Qden]; lra).
    rewrite H01 in Herr, Hsep |- *.
    split; [lra|].
    replace ((Spec.separation [a'; b'] + 1 / 10) / 2 - 1 / 10)
      with ((Spec.separation [a'; b'] - 1 / 10) / 2) by lra.
    rewrite Herr. simpl. field. apply pow_nonzero. lra.
Qed.

End TwoParticles.

(** C6, where the claim fails.  Two particles at the same point, one of
    them pinned, tied by a constraint: the pass skips the constraint, so
    the distance is 0 after any number of passes and never comes nearer
    to the rest length 0.1. *)
Lemma coincident_particles_stay :
  let ps := particles (knot (F := R)) in
  Spec.separation ps = 0%R /\
  ~ (exists n, Spec.separation (Spec.passes [(0, 1)%Z] n ps) <> 0%R).
Proof.
  intros ps.
  assert (H0 : Spec.separation ps = 0%R).
  { pose proof (length_sub_self_not_pos
                  (Vec3 (R_lit 0 1) (R_lit 0 1) (R_lit 0 1))) as H.
    apply R_ltb_false in H. simpl in H. rewrite R_lit_0 in H.
    pose proof (sqrt_pos ((0 - 0) * (0 - 0) + (0 - 0) * (0 - 0) +
                          (0 - 0) * (0 - 0))) as Hp.
    subst ps. simpl. rewrite !R_lit_0. lra. }
  split; [done|].
  assert (Hfix : relax [(0, 1)%Z] ps = ps).
  { unfold relax. simpl foldl.
    apply satisfy_constraint_coincident.
    - unfold vector_size_ok. simpl. lia.
    - unfold in_range. simpl. lia.
    - by eexists _, _. }
  intros [n Hn]. apply Hn. clear Hn.
  replace (Spec.passes [(0, 1)%Z] n ps) with ps; [done|].
  induction n as [|n IH]; [done|].
  by rewrite passes_succ, <- IH.
Qed.

(** C6, as amended.  Two particles that are apart, exactly one of them
    pinned, and one constraint between them (its rest length is the
    constant 0.1 of the code): every relaxation pass halves the signed
    difference between their distance and 0.1.  The distance therefore
    comes nearer to 0.1 at each pass and stays on the side it started
    from.  Arithmetic is exact. *)
Theorem constraint_error_halves (a b : PhysicsParticle R) (c : Z * Z)
    (n : nat) :
  xorb (pinned a) (pinned b) = true ->
  c = (0, 1)%Z \/ c = (1, 0)%Z ->
  (0 < Spec.separation [a; b])%R ->
  let d k := Spec.separation (Spec.passes [c] k [a; b]) in
  (d n - 0.1 = (d 0%nat - 0.1) / 2 ^ n)%R /\
  (d (S n) - 0.1 = (d n - 0.1) / 2)%R /\
  (Rabs (d (S n) - 0.1) <= Rabs (d n - 0.1))%R /\
  (0 <= (d n - 0.1) * (d 0%nat - 0.1))%R.
Proof.
  intros Hpin Hc Hd d.
  assert (Hn : forall k, (d k - 0.1 = (d 0%nat - 0.1) / 2 ^ k)%R).
  { intros k. subst d. cbv beta.
    destruct (passes_two a b c k Hpin Hc Hd) as (a' & b' & -> & _ & _ & _ & ->).
    done. }
  assert (Hpow : (0 < 2 ^ n)%R) by (apply pow_lt; lra).
  assert (Hstep : (d (S n) - 0.1 = (d n - 0.1) / 2)%R).
  { rewrite (Hn (S n)), (Hn n). simpl. field. lra. }
  split; [done|]. split; [done|]. split.
  - rewrite Hstep. unfold Rdiv. rewrite Rabs_mult.
    rewrite (Rabs_pos_eq (/ 2)) by lra.
    pose proof (Rabs_pos (d n - 0.1)%R). lra.
  - rewrite (Hn n). unfold Rdiv.
    replace ((d 0%nat - 0.1) * / 2 ^ n * (d 0%nat - 0.1))%R
      with ((d 0%nat - 0.1) * (d 0%nat - 0.1) * / 2 ^ n)%R by ring.
    apply Rmult_le_pos; [apply Rle_0_sqr|]. apply Rlt_le, Rinv_0_lt_compat. done.
Qed.

Lemma constraint_error_halves_witness :
  let a := point (F := R) 0%R 0%R 0%R true in
  let b := point (F := R) 0%R (-1)%R 0%R false in
  let d k := Spec.separation (Spec.passes [(0, 1)%Z] k [a; b]) in
  (d 3%nat - 0.1 = (d 0%nat - 0.1) / 2 ^ 3)%R.
Proof.
  intros a b d.
  refine (proj1 (constraint_error_halves a b (0, 1)%Z 3%nat eq_refl
                   (or_introl eq_refl) _)).
  unfold Spec.separation, v3_length, v3_dot, v3_sub, a, b, point.
  cbn [position vx vy vz f_sub f_mul f_add real_ops].
  apply sqrt_lt_R0. lra.
Defined.

(** ** Further properties: initialisation and write-back *)

Section WriteBack.
Context {F : Type} {ops : FloatOps F}.
Implicit Types (ps : list (PhysicsParticle F)) (vs : list (Vertex F)).
Implicit Types (region : MeshRegion F) (st : CharacterRenderer F).

Lemma write_back_length ps vs : length (write_back ps vs) = length vs.
Proof.
  revert vs. induction ps as [|p ps IH]; intros [|v vs]; simpl; auto.
Qed.

Lemma write_back_lookup ps vs i :
  write_back ps vs !! i =
    (fun v => match ps !! i with
              | Some p => set_vertex_position v (position p)
              | None => v
              end) <$> vs !! i.
Proof.
  revert vs i. induction ps as [|p ps IH]; intros vs i.
  - destruct vs as [|v vs], i as [|i]; simpl; try done.
    by destruct (vs !! i).
  - destruct vs as [|v vs]; [done|]. destruct i as [|i]; simpl; [done|].
    apply IH.
Qed.

(** The write-back of [ApplyPhysicsToMesh]: the vertex count is kept; a
    vertex with a particle at its index takes that particle's position and
    keeps its normal, texture coordinates, bone ids and weights; a vertex
    beyond the particle list is left as it is; particles, constraints and
    indices are not touched. *)
Theorem ApplyPhysicsToMesh_vertices region :
  let region' := ApplyPhysicsToMesh region in
  length (vertices region') = length (vertices region) /\
  particles region' = particles region /\
  constraints region' = constraints region /\
  indices region' = indices region /\
  forall i v, vertices region !! i = Some v ->
    exists v', vertices region' !! i = Some v' /\
      normal v' = normal v /\ texCoords v' = texCoords v /\
      boneIds v' = boneIds v /\ weights v' = weights v /\
      match particles region !! i with
      | Some p => vertex_position v' = position p
      | None => v' = v
      end.
Proof.
  simpl. split; [apply write_back_length|]. repeat split; try done.
  intros i v Hv. rewrite write_back_lookup, Hv. simpl.
  eexists. split; [done|]. by destruct (particles region !! i).
Qed.

Lemma write_back_idem ps vs :
  write_back ps (write_back ps vs) = write_back ps vs.
Proof.
  revert vs. induction ps as [|p ps IH]; intros [|v vs]; simpl; auto.
  by rewrite IH.
Qed.

Lemma InitializePhysicsParticles_lookup region i :
  particles (InitializePhysicsParticles region) !! i =
    (fun v => mkParticle (vertex_position v) (vertex_position v)
                (Vec3 (f_lit 0 1) (f_lit 0 1) (f_lit 0 1)) (f_lit 1 1)
                (bool_decide (i < 10)%nat)) <$> vertices region !! i.
Proof. simpl. apply list_lookup_imap. Qed.

(** [InitializePhysicsParticles]: one particle per vertex, whatever
    particles the region had; the particle at index [i] sits at vertex
    [i] with no velocity ([oldPosition = position]), zero acceleration
    and unit mass, and is pinned exactly when [i < 10]; vertices and
    constraints are kept. *)
Theorem InitializePhysicsParticles_spec region :
  let region' := InitializePhysicsParticles region in
  length (particles region') = length (vertices region) /\
  vertices region' = vertices region /\
  constraints region' = constraints region /\
  forall i v, vertices region !! i = Some v ->
    exists p, particles region' !! i = Some p /\
      position p = vertex_position v /\ oldPosition p = vertex_position v /\
      acceleration p = Vec3 (f_lit 0 1) (f_lit 0 1) (f_lit 0 1) /\
      mass p = f_lit 1 1 /\
      (pinned p = true <-> (i < 10)%nat).
Proof.
  simpl. split; [apply length_imap|]. repeat split; try done.
  intros i v Hv. eexists. split.
  - pose proof (InitializePhysicsParticles_lookup region i) as H.
    simpl in H. rewrite H, Hv. done.
  - simpl. repeat split; try done.
    + intros H. by apply bool_decide_eq_true in H.
    + intros H. by apply bool_decide_eq_true.
Qed.

Lemma write_back_imap_same (f : nat -> Vertex F -> PhysicsParticle F) vs :
  (forall i v, position (f i v) = vertex_position v) ->
  write_back (imap f vs) vs = vs.
Proof.
  revert f. induction vs as [|v vs IH]; intros f Hf; simpl; [done|].
  rewrite Hf. f_equal.
  - by destruct v.
  - apply IH. intros i w. apply Hf.
Qed.

Lemma write_back_after_Initialize region :
  ApplyPhysicsToMesh (InitializePhysicsParticles region) =
  InitializePhysicsParticles region.
Proof.
  unfold ApplyPhysicsToMesh, InitializePhysicsParticles, set_vertices,
    set_particles. simpl.
  by rewrite write_back_imap_same.
Qed.

(** Writing back twice is writing back once, and writing back right after
    initialisation changes nothing: the particles were read from the
    vertices. *)
Theorem ApplyPhysicsToMesh_idempotent region :
  ApplyPhysicsToMesh (ApplyPhysicsToMesh region) = ApplyPhysicsToMesh region /\
  ApplyPhysicsToMesh (InitializePhysicsParticles region) =
    InitializePhysicsParticles region.
Proof.
  split; [|apply write_back_after_Initialize].
  unfold ApplyPhysicsToMesh, set_vertices. simpl.
  by rewrite write_back_idem.
Qed.

End WriteBack.

(** ** Further properties: what the physics advance keeps *)

Section PhysicsInvariants.
Context {F : Type} {ops : FloatOps F}.
Implicit Types (ps : list (PhysicsParticle F)) (p q : PhysicsParticle F).
Implicit Types (cs : list (Z * Z)) (c : Z * Z) (st : CharacterRenderer F).

Lemma same_but_position_refl p : same_but_position p p.
Proof. done. Qed.

Lemma same_but_position_trans p q r :
  same_but_position p q -> same_but_position q r -> same_but_position p r.
Proof. unfold same_but_position. intros (?&?&?&?) (?&?&?&?). repeat split; congruence. Qed.

Lemma same_but_position_set p v : same_but_position p (set_position p v).
Proof. done. Qed.

Lemma satisfy_constraint_fields ps c k p :
  ps !! k = Some p ->
  exists q, satisfy_constraint ps c !! k = Some q /\ same_but_position p q.
Proof.
  intros Hk. unfold satisfy_constraint.
  destruct (_ || _); [by exists p|].
  destruct (ps !! Z.to_nat (to_size_t c.1)) as [p1|] eqn:H1; [|by exists p].
  destruct (ps !! Z.to_nat (to_size_t c.2)) as [p2|] eqn:H2; [|by exists p].
  destruct (f_ltb _ _); [|by exists p].
  set (tr := v3_scale _ _).
  set (ps1 := if pinned p1 then ps else _).
  assert (Hps1 : exists q, ps1 !! k = Some q /\ same_but_position p q).
  { subst ps1. destruct (pinned p1); [by exists p|].
    destruct (decide (Z.to_nat (to_size_t c.1) = k)) as [<- | Hne].
    - rewrite list_lookup_insert_eq by (by eapply lookup_lt_Some).
      eexists. split; [done|]. by simplify_eq.
    - rewrite list_lookup_insert_ne by done. by exists p. }
  clearbody ps1. destruct Hps1 as (q & Hq & Hpq).
  destruct (ps1 !! Z.to_nat (to_size_t c.2)) as [q2|] eqn:H3; [|by exists q].
  destruct (pinned q2); [by exists q|].
  destruct (decide (Z.to_nat (to_size_t c.2) = k)) as [<- | Hne].
  - rewrite list_lookup_insert_eq by (by eapply lookup_lt_Some).
    eexists. split; [done|]. simplify_eq.
    eapply same_but_position_trans; [done|]. apply same_but_position_set.
  - rewrite list_lookup_insert_ne by done. by exists q.
Qed.

Lemma relax_fields cs ps k p :
  ps !! k = Some p ->
  exists q, relax cs ps !! k = Some q /\ same_but_position p q.
Proof.
  unfold relax. revert ps p.
  induction cs as [|c cs IH]; intros ps p Hk; simpl.
  - by exists p.
  - destruct (satisfy_constraint_fields ps c k p Hk) as (q & Hq & Hpq).
    destruct (IH _ q Hq) as (r & Hr & Hqr).
    exists r. split; [done|].
    by apply (same_but_position_trans p q r).
Qed.

(** A relaxation pass writes positions only: the particle count, and at
    every index the old position, acceleration, mass and pinned flag, are
    what they were, whatever the constraints. *)
Theorem relax_keeps_all_but_position cs ps :
  length (relax cs ps) = length ps /\
  forall k p, ps !! k = Some p ->
    exists q, relax cs ps !! k = Some q /\
      oldPosition q = oldPosition p /\ acceleration q = acceleration p /\
      mass q = mass p /\ pinned q = pinned p.
Proof.
  split; [apply relax_length|]. intros k p Hk.
  by apply relax_fields.
Qed.

Lemma list_eq_pinned ps ps' :
  length ps' = length ps ->
  (forall k p, ps !! k = Some p -> ps' !! k = Some p) ->
  ps' = ps.
Proof.
  intros Hlen H. apply list_eq. intros k.
  destruct (ps !! k) as [p|] eqn:Hk; [by apply H|].
  apply lookup_ge_None in Hk. apply lookup_ge_None. lia.
Qed.

(** When every particle is pinned, integration and relaxation return the
    particle list as it was. *)
Lemma advance_all_pinned wind dt cs ps :
  Forall (fun p => pinned p = true) ps ->
  relax cs (map (integrate_particle wind dt) ps) = ps.
Proof.
  intros Hall. apply list_eq_pinned.
  - by rewrite relax_length, length_map.
  - intros k p Hk. apply advance_pinned; [done|].
    exact (Forall_lookup_1 _ _ _ _ Hall Hk).
Qed.

(** The hair region after [UpdateHairPhysics], when it has particles. *)
Lemma UpdateHairPhysics_hair dt st :
  particles (hair (parts (character st))) <> [] ->
  hair (parts (character (UpdateHairPhysics dt st))) =
    let region := hair (parts (character st)) in
    ApplyPhysicsToMesh
      (SatisfyConstraints
         (set_particles region
            (map (integrate_particle (windForce (character st)) dt)
                 (particles region)))).
Proof.
  unfold UpdateHairPhysics.
  by destruct (particles (hair (parts (character st)))).
Qed.

(** After [UpdateHairPhysics] on a hair region with particles, the vertex
    buffer agrees with the particles: wherever an index has both a
    particle and a vertex, the vertex is at the particle's position.
    Particle and vertex counts and the constraint list are unchanged. *)
Theorem UpdateHairPhysics_mesh_consistent dt st :
  particles (hair (parts (character st))) <> [] ->
  let region := hair (parts (character st)) in
  let region' := hair (parts (character (UpdateHairPhysics dt st))) in
  length (particles region') = length (particles region) /\
  length (vertices region') = length (vertices region) /\
  constraints region' = constraints region /\
  forall i p v, particles region' !! i = Some p ->
    vertices region' !! i = Some v -> vertex_position v = position p.
Proof.
  intros Hne region region'. subst region'.
  rewrite UpdateHairPhysics_hair by done. cbv zeta. fold region. simpl.
  split; [by rewrite relax_length, length_map|].
  split; [apply write_back_length|]. split; [done|].
  intros i p v Hp Hv. rewrite write_back_lookup, Hp in Hv.
  destruct (vertices region !! i) as [v0|]; simpl in Hv; [|done].
  by injection Hv as <-.
Qed.

(** [UpdateHairPhysics] never changes which particles are pinned, nor a
    mass, nor the number of particles. *)
Theorem UpdateHairPhysics_keeps_pins dt st k p :
  particles (hair (parts (character st))) !! k = Some p ->
  exists q,
    particles (hair (parts (character (UpdateHairPhysics dt st)))) !! k = Some q /\
    pinned q = pinned p /\ mass q = mass p.
Proof.
  intros Hk.
  rewrite UpdateHairPhysics_hair_particles
    by (intros Hnil; by rewrite Hnil in Hk).
  destruct (relax_fields (constraints (hair (parts (character st))))
              (map (integrate_particle (windForce (character st)) dt)
                   (particles (hair (parts (character st)))))
              k (integrate_particle (windForce (character st)) dt p))
    as (q & Hq & _ & _ & Hm & Hp).
  { by rewrite list_lookup_fmap, Hk. }
  exists q. split; [done|]. rewrite Hp, Hm.
  unfold integrate_particle. destruct (pinned p) eqn:E; simpl; by rewrite ?E.
Qed.

End PhysicsInvariants.

Lemma UpdateHairPhysics_keeps_pins_witness :
  exists q,
    particles (hair (parts (character
      (UpdateHairPhysics (f_lit 1 60)
         (renderer_with (F := spec_float) strand empty_region
            (f_lit 0 1) (f_lit 1 60)))))) !! 1%nat = Some q /\
    pinned q = false /\ mass q = f_lit 1 1.
Proof.
  apply (UpdateHairPhysics_keeps_pins (f_lit 1 60)
           (renderer_with (F := spec_float) strand empty_region
              (f_lit 0 1) (f_lit 1 60)) 1%nat
           (point (f_lit 0 1) (f_lit (-1) 1) (f_lit 0 1) false)).
  reflexivity.
Defined.

Lemma UpdateHairPhysics_mesh_consistent_witness :
  let st := renderer_with (F := spec_float) strand empty_region
              (f_lit 0 1) (f_lit 1 60) in
  length (vertices (hair (parts (character (UpdateHairPhysics (f_lit 1 60) st)))))
    = 2%nat.
Proof.
  intros st.
  refine (proj1 (proj2 (UpdateHairPhysics_mesh_consistent (f_lit 1 60) st _))).
  discriminate.
Defined.

(** ** Further properties: loading a character *)

Section LoadingFacts.
Context {F : Type} {ops : FloatOps F}.
Implicit Types (region r : MeshRegion F) (st : CharacterRenderer F).

Lemma LoadCharacter_hair path st :
  enablePhysics st = true ->
  hair (parts (character (LoadCharacter path st))) =
    InitializePhysicsParticles (hair (parts (character st))) /\
  skirt (parts (character (LoadCharacter path st))) =
    InitializePhysicsParticles (skirt (parts (character st))).
Proof. unfold LoadCharacter. simpl. by intros ->. Qed.

(** Loading twice is loading once: [LoadCharacter] rebuilds the particles
    from the vertex buffers, which it does not change. *)
Theorem LoadCharacter_idempotent path1 path2 st :
  LoadCharacter path2 (LoadCharacter path1 st) = LoadCharacter path1 st.
Proof.
  unfold LoadCharacter. cbn [enablePhysics CreateDefaultCharacter set_character].
  destruct (enablePhysics st) eqn:Hen;
    cbn [enablePhysics CreateDefaultCharacter set_character]; rewrite ?Hen; done.
Qed.

(** After [LoadCharacter] with physics enabled, the expression is the
    default one, the blink timer is zero, the head buffers are empty, and
    the hair and the skirt are at rest: one particle per vertex, each with
    [oldPosition = position]. *)
Theorem LoadCharacter_at_rest path st :
  enablePhysics st = true ->
  let st' := LoadCharacter path st in
  let b := parts (character st) in
  let b' := parts (character st') in
  currentExpression (character st') = default_expression /\
  blinkTimer (character st') = f_lit 0 1 /\
  vertices (head b') = [] /\ indices (head b') = [] /\
  length (particles (hair b')) = length (vertices (hair b)) /\
  length (particles (skirt b')) = length (vertices (skirt b)) /\
  vertices (hair b') = vertices (hair b) /\
  vertices (skirt b') = vertices (skirt b) /\
  Forall (fun p => oldPosition p = position p)
         (particles (hair b') ++ particles (skirt b')).
Proof.
  intros Hen. cbv zeta.
  destruct (LoadCharacter_hair path st Hen) as [Hh Hs].
  assert (Hrest : forall r,
    Forall (fun p => oldPosition p = position p)
           (particles (InitializePhysicsParticles r))).
  { intros r. apply Forall_lookup. intros i p Hp.
    rewrite InitializePhysicsParticles_lookup in Hp.
    destruct (vertices r !! i); simpl in Hp; [|done]. by injection Hp as <-. }
  rewrite Hh, Hs.
  assert (Hst : LoadCharacter path st =
    let st1 := CreateDefaultCharacter st in
    let c := character st1 in
    let b1 := set_hair (parts c) (InitializePhysicsParticles (hair (parts c))) in
    let b2 := set_skirt b1 (InitializePhysicsParticles (skirt b1)) in
    set_character st1 (set_parts c b2)).
  { unfold LoadCharacter. cbn [enablePhysics CreateDefaultCharacter set_character].
    by rewrite Hen. }
  rewrite Hst.
  repeat split; try done; try apply length_imap.
  apply Forall_app. split; apply Hrest.
Qed.

Lemma Initialize_all_pinned region :
  (length (vertices region) <= 10)%nat ->
  Forall (fun p => pinned p = true)
         (particles (InitializePhysicsParticles region)).
Proof.
  intros Hlen. apply Forall_lookup. intros i p Hp.
  rewrite InitializePhysicsParticles_lookup in Hp.
  destruct (vertices region !! i) eqn:Hv; simpl in Hp; [|done].
  injection Hp as <-. simpl. apply bool_decide_eq_true.
  apply lookup_lt_Some in Hv. lia.
Qed.

Lemma set_particles_same region :
  set_particles region (particles region) = region.
Proof. by destruct region. Qed.

(** A hair region freshly initialised from at most ten vertices is pinned
    throughout: the physics advance returns the renderer state as it
    was. *)
Lemma UpdateHairPhysics_static dt st r :
  hair (parts (character st)) = InitializePhysicsParticles r ->
  (length (vertices r) <= 10)%nat ->
  UpdateHairPhysics dt st = st.
Proof.
  intros Hh Hlen. unfold UpdateHairPhysics.
  destruct (particles (hair (parts (character st)))) as [|p0 ps0] eqn:Hps;
    [done|].
  rewrite <- Hps. unfold SatisfyConstraints. cbn [particles constraints set_particles].
  rewrite advance_all_pinned by (rewrite Hh; by apply Initialize_all_pinned).
  replace (set_particles _ (particles (hair (parts (character st)))))
    with (hair (parts (character st))).
  - rewrite Hh, write_back_after_Initialize, <- Hh.
    apply set_hair_same.
  - by destruct (hair (parts (character st))).
Qed.

(** A character loaded with physics enabled whose hair has at most ten
    vertices does not move: [UpdateHairPhysics] is the identity on the
    loaded state, for every delta-time and wind. *)
Theorem loaded_short_hair_static path dt st :
  enablePhysics st = true ->
  (length (vertices (hair (parts (character st)))) <= 10)%nat ->
  UpdateHairPhysics dt (LoadCharacter path st) = LoadCharacter path st.
Proof.
  intros Hen Hlen.
  apply (UpdateHairPhysics_static dt _ (hair (parts (character st))));
    [|done].
  by destruct (LoadCharacter_hair path st Hen).
Qed.

Lemma set_vertex_position_same (v : Vertex F) :
  set_vertex_position v (vertex_position v) = v.
Proof. by destruct v. Qed.

(** After loading, the first ten hair vertices stay where they are,
    however many physics advances follow: their particles are pinned and
    the write-back returns them to the same place. *)
Theorem loaded_anchor_vertices_stay path dt st n i v :
  enablePhysics st = true ->
  (i < 10)%nat ->
  vertices (hair (parts (character st))) !! i = Some v ->
  vertices (hair (parts (character
    (Nat.iter n (UpdateHairPhysics dt) (LoadCharacter path st))))) !! i
  = Some v.
Proof.
  intros Hen Hi Hv.
  set (p0 := mkParticle (vertex_position v) (vertex_position v)
               (Vec3 (f_lit 0 1) (f_lit 0 1) (f_lit 0 1)) (f_lit 1 1) true).
  assert (Hinv :
    let h := hair (parts (character
               (Nat.iter n (UpdateHairPhysics dt) (LoadCharacter path st)))) in
    particles h !! i = Some p0 /\ vertices h !! i = Some v).
  { induction n as [|n [IHp IHv]].
    - simpl Nat.iter. destruct (LoadCharacter_hair path st Hen) as [-> _].
      split; [|done].
      rewrite InitializePhysicsParticles_lookup, Hv. simpl.
      by rewrite bool_decide_eq_true_2.
    - simpl Nat.iter.
      set (s := Nat.iter n (UpdateHairPhysics dt) (LoadCharacter path st)) in *.
      assert (Hne : particles (hair (parts (character s))) <> []).
      { intros Hnil. by rewrite Hnil in IHp. }
      cbv zeta. split.
      + rewrite UpdateHairPhysics_hair_particles by done.
        by apply advance_pinned.
      + rewrite UpdateHairPhysics_hair by done. cbv zeta. simpl.
        rewrite write_back_lookup, IHv. simpl.
        rewrite advance_pinned with (p := p0) by done.
        simpl. by rewrite set_vertex_position_same. }
  apply Hinv.
Qed.

End LoadingFacts.

Lemma loaded_short_hair_static_witness :
  let st := renderer_with (F := spec_float) strand empty_region
              (f_lit 0 1) (f_lit 1 60) in
  UpdateHairPhysics (f_lit 1 60) (LoadCharacter SamplePath.image st)
    = LoadCharacter SamplePath.image st.
Proof.
  intros st.
  apply (loaded_short_hair_static SamplePath.image (f_lit 1 60) st);
    [reflexivity | simpl; lia].
Defined.

Lemma loaded_anchor_vertices_stay_witness :
  let st := renderer_with (F := spec_float) strand empty_region
              (f_lit 0 1) (f_lit 1 60) in
  vertices (hair (parts (character
    (Nat.iter 3 (UpdateHairPhysics (f_lit 1 60)) (LoadCharacter SamplePath.image st)))))
    !! 1%nat
  = Some (vertex_at (f_lit 0 1) (f_lit (-1) 1) (f_lit 0 1)).
Proof.
  intros st.
  apply (loaded_anchor_vertices_stay SamplePath.image (f_lit 1 60) st 3 1);
    [reflexivity | lia | reflexivity].
Defined.

Lemma LoadCharacter_at_rest_witness :
  let st := renderer_with (F := spec_float) strand strand
              (f_lit 7 1) (f_lit 1 60) in
  blinkTimer (character (LoadCharacter SamplePath.image st)) = f_lit 0 1.
Proof.
  intros st.
  refine (proj1 (proj2 (LoadCharacter_at_rest SamplePath.image st _))).
  reflexivity.
Defined.

(** ** Further properties: expressions *)

Section ExpressionFacts.
Context {F : Type} {ops : FloatOps F}.
Implicit Types (st : CharacterRenderer F) (target : FacialExpression F).

Lemma set_currentExpression_same st :
  set_character st
    (set_currentExpression (character st) (currentExpression (character st)))
  = st.
Proof. by destruct st as [[] ? ? ?]. Qed.

(** A blend that returns each of the four parameters leaves the state as
    it is. *)
Lemma InterpolateExpression_fixed target speed st :
  let cur := currentExpression (character st) in
  let f := f_mul (deltaTime st) speed in
  glm_mix (eyeOpenness cur) (eyeOpenness target) f = eyeOpenness cur ->
  glm_mix (mouthOpenness cur) (mouthOpenness target) f = mouthOpenness cur ->
  glm_mix (smileIntensity cur) (smileIntensity target) f = smileIntensity cur ->
  glm_mix (browRaise cur) (browRaise target) f = browRaise cur ->
  InterpolateExpression target speed st = st.
Proof.
  intros cur f He Hm Hs Hb. unfold InterpolateExpression.
  fold cur. fold f. rewrite He, Hm, Hs, Hb.
  replace (mkExpression _ _ _ _ _ _) with cur by (by destruct cur).
  apply set_currentExpression_same.
Qed.

(** [SetEmotion] writes the four facial parameters of the current
    expression and nothing else: the renderer keeps the emotion and the
    intensity it had recorded, and every other member. *)
Theorem SetEmotion_writes_four_parameters emotion i st :
  let cur := currentExpression (character st) in
  exists eye mouth_ smile brow,
    SetEmotion emotion i st =
      set_character st
        (set_currentExpression (character st)
           (mkExpression eye mouth_ smile brow
                         (primaryEmotion cur) (intensity cur))).
Proof. by eexists _, _, _, _. Qed.

Lemma AnimateFacialExpression_deltaTime target st :
  deltaTime (AnimateFacialExpression target st) = deltaTime st.
Proof. done. Qed.

(** Over any run of frame updates, whatever the clock and [rand()]
    return: the mouth, smile and brow parameters, the recorded emotion and
    the recorded intensity stay as they are, and the eye openness is
    either untouched or the blink value 0.1.  Eyes that are at the blink
    value stay there: no frame update reopens them. *)
Theorem run_frames_expression libm_sin M_PI frames st :
  let e := currentExpression (character st) in
  let e' := currentExpression (character (run_frames libm_sin M_PI frames st)) in
  mouthOpenness e' = mouthOpenness e /\
  smileIntensity e' = smileIntensity e /\
  browRaise e' = browRaise e /\
  primaryEmotion e' = primaryEmotion e /\
  intensity e' = intensity e /\
  (eyeOpenness e' = eyeOpenness e \/ eyeOpenness e' = f_lit 1 10) /\
  (eyeOpenness e = f_lit 1 10 -> eyeOpenness e' = f_lit 1 10).
Proof.
  cbv zeta. revert st.
  induction frames as [|[[dt now] rnd] rest IH]; intros st; simpl.
  - repeat split; auto.
  - destruct (IH (UpdateAnimation libm_sin M_PI dt now rnd st))
      as (Hm & Hs & Hb & Hp & Hi & He & Hblink).
    pose proof (UpdateAnimation_expression libm_sin M_PI dt now rnd st) as H1.
    cbv zeta in H1.
    rewrite Hm, Hs, Hb, Hp, Hi.
    destruct H1 as [H1 | H1]; rewrite H1 in He, Hblink |- *; simpl in *.
    + repeat split; auto.
    + repeat split; auto; destruct He as [-> | ->]; auto.
Qed.

Lemma UpdateHairPhysics_lastFrame dt st :
  lastFrame (UpdateHairPhysics dt st) = lastFrame st /\
  enablePhysics (UpdateHairPhysics dt st) = enablePhysics st.
Proof.
  unfold UpdateHairPhysics.
  by destruct (particles (hair (parts (character st)))).
Qed.

Lemma UpdateClothPhysics_lastFrame dt st :
  lastFrame (UpdateClothPhysics dt st) = lastFrame st /\
  enablePhysics (UpdateClothPhysics dt st) = enablePhysics st.
Proof.
  destruct (UpdateClothPhysics_cases dt st) as [-> | ->]; [done|].
  apply UpdateHairPhysics_lastFrame.
Qed.

Lemma UpdateIdleAnimations_frame libm_sin M_PI time rnd st :
  let st' := UpdateIdleAnimations libm_sin M_PI time rnd st in
  lastFrame st' = lastFrame st /\ enablePhysics st' = enablePhysics st /\
  parts (character st') = parts (character st) /\
  windForce (character st') = windForce (character st).
Proof.
  unfold UpdateIdleAnimations. simpl. by destruct (blink_fires _ _).
Qed.

(** A frame update stores the clock difference as frame time and the
    clock as last frame, whatever its argument; and when physics is
    disabled or the hair has no particle, the argument has no effect at
    all. *)
Theorem UpdateAnimation_argument_unused libm_sin M_PI dt now rnd st :
  let st' := UpdateAnimation libm_sin M_PI dt now rnd st in
  deltaTime st' = f_sub now (lastFrame st) /\
  lastFrame st' = now /\
  (enablePhysics st = false \/ particles (hair (parts (character st))) = [] ->
   forall dt2, UpdateAnimation libm_sin M_PI dt2 now rnd st = st').
Proof.
  cbv zeta. split; [apply UpdateAnimation_deltaTime|].
  assert (Hun : forall d, UpdateAnimation libm_sin M_PI d now rnd st =
    let s := idle_state libm_sin M_PI now rnd st in
    if enablePhysics s then UpdateClothPhysics d (UpdateHairPhysics d s) else s)
    by done.
  destruct (UpdateIdleAnimations_frame libm_sin M_PI now rnd
              (set_lastFrame (set_deltaTime st (f_sub now (lastFrame st))) now))
    as (Hl & Hen & Hparts & _).
  fold (idle_state libm_sin M_PI now rnd st) in Hl, Hen, Hparts.
  simpl in Hl, Hen, Hparts.
  split.
  - rewrite Hun. cbv zeta. destruct (enablePhysics _); [|done].
    by rewrite (proj1 (UpdateClothPhysics_lastFrame _ _)),
      (proj1 (UpdateHairPhysics_lastFrame _ _)).
  - intros Hcase dt2. rewrite !Hun. cbv zeta. rewrite Hen.
    destruct (enablePhysics st) eqn:E; [|done].
    destruct Hcase as [? | Hnil]; [done|].
    assert (Hid : forall d,
      UpdateHairPhysics d (idle_state libm_sin M_PI now rnd st) =
      idle_state libm_sin M_PI now rnd st).
    { intros d. unfold UpdateHairPhysics. by rewrite Hparts, Hnil. }
    assert (Hcl : forall d,
      UpdateClothPhysics d (idle_state libm_sin M_PI now rnd st) =
      idle_state libm_sin M_PI now rnd st).
    { intros d. destruct (UpdateClothPhysics_cases d
        (idle_state libm_sin M_PI now rnd st)) as [-> | ->]; [done|].
      apply Hid. }
    by rewrite !Hid, !Hcl.
Qed.

(** With physics enabled, one frame update advances the hair twice when
    the skirt has particles ([UpdateClothPhysics] runs the hair update
    again) and once when it has none. *)
Theorem UpdateAnimation_hair_steps libm_sin M_PI dt now rnd st :
  enablePhysics st = true ->
  let s := idle_state libm_sin M_PI now rnd st in
  UpdateAnimation libm_sin M_PI dt now rnd st =
    match particles (skirt (parts (character st))) with
    | [] => UpdateHairPhysics dt s
    | _ :: _ => UpdateHairPhysics dt (UpdateHairPhysics dt s)
    end.
Proof.
  intros Hen s.
  destruct (UpdateIdleAnimations_frame libm_sin M_PI now rnd
              (set_lastFrame (set_deltaTime st (f_sub now (lastFrame st))) now))
    as (_ & Hen' & Hparts & _).
  fold (idle_state libm_sin M_PI now rnd st) in Hen', Hparts. fold s in Hen', Hparts.
  simpl in Hen', Hparts.
  assert (Hun : UpdateAnimation libm_sin M_PI dt now rnd st =
    if enablePhysics s then UpdateClothPhysics dt (UpdateHairPhysics dt s) else s)
    by done.
  rewrite Hun, Hen', Hen. unfold UpdateClothPhysics.
  destruct (UpdateHairPhysics_frame dt s) as (_&_&_&_&_&_&_&->).
  by rewrite Hparts.
Qed.

End ExpressionFacts.

Lemma UpdateAnimation_hair_steps_witness :
  let st := renderer_with (F := spec_float) strand strand
              (f_lit 0 1) (f_lit 1 60) in
  let s := idle_state (fun x => x) (f_lit 355 113) (f_lit 1 60) 0 st in
  UpdateAnimation (fun x => x) (f_lit 355 113) (f_lit 1 60) (f_lit 1 60) 0 st =
    UpdateHairPhysics (f_lit 1 60) (UpdateHairPhysics (f_lit 1 60) s).
Proof.
  intros st s.
  apply (UpdateAnimation_hair_steps (fun x => x) (f_lit 355 113)
           (f_lit 1 60) (f_lit 1 60) 0 st).
  reflexivity.
Defined.

(** ** Further properties: expressions, in exact arithmetic *)

Section ExpressionReal.
Local Open Scope R_scope.
Implicit Types (st : CharacterRenderer R) (target : FacialExpression R).

Lemma glm_mix_same (x a : R) : glm_mix x x a = x.
Proof. unfold glm_mix. simpl. ring. Qed.

Lemma glm_mix_error (x y a : R) : glm_mix x y a - y = (1 - a) * (x - y).
Proof. unfold glm_mix. simpl. ring. Qed.

(** A request made while the stored frame time is zero (as the
    constructor leaves it, before the first frame update) has no effect at
    all. *)
Theorem SetEmotion_before_first_frame emotion (i : R) st :
  deltaTime st = 0 -> SetEmotion emotion i st = st.
Proof.
  intros Hdt. unfold SetEmotion, AnimateFacialExpression.
  apply InterpolateExpression_fixed; rewrite Hdt;
    unfold glm_mix; simpl; unfold R_lit; lra.
Qed.

Lemma SetEmotion_unmapped_exact emotion (i : R) st :
  emotion = NEUTRAL \/ emotion = ANGRY \/ emotion = EXCITED ->
  SetEmotion emotion i st = st.
Proof.
  intros He. unfold SetEmotion, AnimateFacialExpression.
  apply InterpolateExpression_fixed;
    destruct He as [-> | [-> | ->]]; apply glm_mix_same.
Qed.

(** The emotions without a table entry (NEUTRAL, ANGRY, EXCITED) change
    nothing in exact arithmetic, whatever the intensity and the stored
    frame time.  In binary32 the blend of a value with itself is rounded:
    after a blink, with a stored frame time of 1/60,
    [SetEmotion(NEUTRAL, 1)] moves the eye openness off 0.1f. *)
Theorem SetEmotion_unmapped :
  (forall emotion (i : R) st,
     emotion = NEUTRAL \/ emotion = ANGRY \/ emotion = EXCITED ->
     SetEmotion emotion i st = st) /\
  let st32 := blinked (F := spec_float) (f_lit 1 60) in
  eyeOpenness (currentExpression (character st32)) = f_lit 1 10 /\
  eyeOpenness (currentExpression
    (character (SetEmotion NEUTRAL (f_lit 1 1) st32))) <> f_lit 1 10.
Proof.
  split; [apply SetEmotion_unmapped_exact|].
  split; [reflexivity|]. vm_compute. discriminate.
Qed.

Lemma glm_clamp_range (x : R) :
  0 <= glm_clamp x (R_lit 0 1) (R_lit 1 1) <= 1 /\
  (0 <= x <= 1 -> glm_clamp x (R_lit 0 1) (R_lit 1 1) = x).
Proof.
  unfold glm_clamp, glm_min, glm_max. simpl. unfold R_ltb, R_lit.
  repeat destruct (Rlt_dec _ _); lra.
Qed.

(** The expression [SetEmotion] builds records the requested emotion and
    an intensity inside [0, 1], equal to the requested one when that is
    inside [0, 1]; the parameters its table does not mention are those of
    the current expression.  The renderer itself records neither: after
    the call its current expression has the emotion and the intensity it
    had before. *)
Theorem SetEmotion_expression_intensity emotion (i : R)
    (st : CharacterRenderer R) :
  let cur := currentExpression (character st) in
  let e := SetEmotion_expression emotion i cur in
  let cur' := currentExpression (character (SetEmotion emotion i st)) in
  primaryEmotion e = emotion /\
  0 <= intensity e <= 1 /\
  (0 <= i <= 1 -> intensity e = i) /\
  mouthOpenness e = (if emotion is SURPRISED then i * 0.3 else mouthOpenness cur) /\
  smileIntensity e =
    match emotion with
    | HAPPY => i | SAD => - i * 0.5 | _ => smileIntensity cur
    end /\
  primaryEmotion cur' = primaryEmotion cur /\
  intensity cur' = intensity cur.
Proof.
  destruct (glm_clamp_range i) as [Hr Hid].
  destruct emotion; simpl; repeat split; try done; try apply Hr;
    try real_eq.
Qed.

(** Repeating a request: with the stored frame time fixed, [n] calls of
    [AnimateFacialExpression] on the same target leave each parameter at
    a distance from the target that is [(1 - deltaTime * 2)^n] times the
    initial one. *)
Theorem repeated_request_error target st n :
  let f := deltaTime st * 2 in
  let cur := currentExpression (character st) in
  let cur' :=
    currentExpression
      (character (Nat.iter n (AnimateFacialExpression target) st)) in
  eyeOpenness cur' - eyeOpenness target =
    (1 - f) ^ n * (eyeOpenness cur - eyeOpenness target) /\
  mouthOpenness cur' - mouthOpenness target =
    (1 - f) ^ n * (mouthOpenness cur - mouthOpenness target) /\
  smileIntensity cur' - smileIntensity target =
    (1 - f) ^ n * (smileIntensity cur - smileIntensity target) /\
  browRaise cur' - browRaise target =
    (1 - f) ^ n * (browRaise cur - browRaise target).
Proof.
  cbv zeta. induction n as [|n (He & Hm & Hs & Hb)].
  - simpl. repeat split; ring.
  - assert (Hdt : deltaTime (Nat.iter n (AnimateFacialExpression target) st)
                  = deltaTime st).
    { clear. induction n as [|n IH]; [done|]. by rewrite <- IH. }
    simpl Nat.iter.
    set (s := Nat.iter n (AnimateFacialExpression target) st) in *.
    unfold AnimateFacialExpression, InterpolateExpression.
    cbn [character currentExpression set_character set_currentExpression
         eyeOpenness mouthOpenness smileIntensity browRaise].
    rewrite !glm_mix_error, He, Hm, Hs, Hb, Hdt.
    simpl. unfold R_lit. repeat split; field.
Qed.

(** ** Further properties: breathing and the blink timer over a run *)

Lemma UpdateIdleAnimations_breathingOffset (libm_sin : R -> R)
    (M_PI time : R) (rnd : Z) st :
  breathingOffset
    (character (UpdateIdleAnimations libm_sin M_PI time rnd st)) =
    Vec3 (vx (breathingOffset (character st)))
         (libm_sin (time * R_lit 25 100 * R_lit 2 1 * M_PI) * R_lit 2 100)
         (vz (breathingOffset (character st))).
Proof.
  rewrite UpdateIdleAnimations_unfold. cbv zeta.
  by destruct (blink_fires _ _).
Qed.

(** Breathing, with the real sine and pi: the vertical offset is
    [sin(2 pi 0.25 t) * 0.02], so it stays within 0.02 of zero and repeats
    every 4 seconds; the other two components are not written. *)
Theorem breathing_offset (time : R) (rnd : Z) st :
  let off t :=
    breathingOffset (character (UpdateIdleAnimations sin PI t rnd st)) in
  vx (off time) = vx (breathingOffset (character st)) /\
  vz (off time) = vz (breathingOffset (character st)) /\
  vy (off time) = sin (2 * PI * 0.25 * time) * 0.02 /\
  Rabs (vy (off time)) <= 0.02 /\
  off (time + 4) = off time.
Proof.
  cbv beta zeta. rewrite !UpdateIdleAnimations_breathingOffset. simpl.
  assert (Harg : forall t,
    t * R_lit 25 100 * R_lit 2 1 * PI = 2 * PI * 0.25 * t) by (intros; real_eq).
  rewrite !Harg.
  assert (Hamp : R_lit 2 100 = 0.02) by real_eq.
  rewrite Hamp.
  split; [done|]. split; [done|]. split; [done|]. split.
  - rewrite Rabs_mult. pose proof (SIN_bound (2 * PI * 0.25 * time)) as [Hlo Hhi].
    assert (Hs : Rabs (sin (2 * PI * 0.25 * time)) <= 1)
      by (apply Rabs_le; lra).
    rewrite (Rabs_pos_eq 0.02) by lra.
    assert (H02 : 0 <= 0.02) by lra.
    nra.
  - f_equal. f_equal.
    replace (2 * PI * 0.25 * (time + 4)) with (2 * PI * 0.25 * time + 2 * PI)
      by real_eq.
    rewrite sin_plus, sin_2PI, cos_2PI. ring.
Qed.

(** Over a non-empty run of frame updates, whatever the clock returns and
    for every value of [rand()], the blink timer ends at 5 seconds at
    most. *)
Theorem run_frames_blink_timer (libm_sin : R -> R) (M_PI : R)
    (frames : list (R * R * Z)) st :
  frames <> [] ->
  Forall (fun f => (0 <= f.2)%Z) frames ->
  blinkTimer (character (run_frames libm_sin M_PI frames st)) <= 5.
Proof.
  revert st. induction frames as [|[[dt now] rnd] rest IH];
    intros st Hne Hall; [done|].
  apply Forall_cons in Hall as [Hr Hrest]. simpl in Hr. simpl.
  destruct rest as [|f rest'].
  - simpl. by apply blink_timer_bounded.
  - by apply IH.
Qed.

End ExpressionReal.

Lemma SetEmotion_before_first_frame_witness :
  let st := renderer_with (F := R) empty_region empty_region 0%R 0%R in
  SetEmotion HAPPY 1%R st = st.
Proof.
  intros st. apply (SetEmotion_before_first_frame HAPPY 1%R st). reflexivity.
Defined.

Lemma SetEmotion_unmapped_witness :
  let st := renderer_with (F := R) empty_region empty_region 0%R 0.5%R in
  SetEmotion ANGRY 1%R st = st.
Proof.
  intros st. apply (proj1 SetEmotion_unmapped ANGRY 1%R st).
  right. left. reflexivity.
Defined.

Lemma run_frames_blink_timer_witness :
  let st := renderer_with (F := R) empty_region empty_region 0%R 0%R in
  (blinkTimer (character (run_frames sin PI [(10, 10, 4%Z)]%R st)) <= 5)%R.
Proof.
  intros st.
  apply (run_frames_blink_timer sin PI [(10, 10, 4%Z)]%R st).
  - discriminate.
  - apply Forall_cons. split; [simpl; lia | apply Forall_nil_2].
Defined.

(** ** Further properties: a constraint between two free particles *)

Section FreePair.
Local Open Scope R_scope.

Lemma rest_length_after (u w : vec3 R) (d : R) :
  d = v3_length u -> 0 < d ->
  vx w = (1 / 10) / d * vx u ->
  vy w = (1 / 10) / d * vy u ->
  vz w = (1 / 10) / d * vz u ->
  v3_length w = 0.1.
Proof.
  intros Hd Hpos Hx Hy Hz.
  replace w with (Vec3 ((1 / 10) / d * vx u) ((1 / 10) / d * vy u)
                       ((1 / 10) / d * vz u))
    by (destruct w; simpl in *; congruence).
  rewrite v3_length_scaled by (apply Rlt_le, Rdiv_lt_0_compat; lra).
  rewrite <- Hd. cbv [Q2R QArith_base.Qnum QArith_base.Qden]. field. lra.
Qed.

(** Two unpinned particles that are apart, tied by one constraint: a
    single relaxation pass moves each by half the correction, which puts
    them exactly at the rest length 0.1 and keeps their midpoint (the sum
    of the two positions) where it was.  Arithmetic is exact. *)
Theorem free_pair_reaches_rest_length (a b : PhysicsParticle R) (c : Z * Z) :
  pinned a = false -> pinned b = false ->
  c = (0, 1)%Z \/ c = (1, 0)%Z ->
  0 < Spec.separation [a; b] ->
  exists a' b',
    relax [c] [a; b] = [a'; b'] /\
    Spec.separation [a'; b'] = 0.1 /\
    v3_add (position a') (position b') = v3_add (position a) (position b).
Proof.
  intros Ha Hb Hc Hd. unfold relax. simpl foldl.
  assert (Hok : vector_size_ok [a; b]) by (unfold vector_size_ok; simpl; lia).
  unfold Spec.separation in Hd |- *.
  destruct Hc as [-> | ->].
  - change (0, 1)%Z with (Z.of_nat 0, Z.of_nat 1).
    rewrite (satisfy_constraint_in_range [a; b] 0 1 a b Hok eq_refl eq_refl).
    cbv zeta. set (delta := v3_sub (position b) (position a)) in *.
    set (d := v3_length delta) in *.
    change (f_ltb (f_lit 0 1) d) with (R_ltb (R_lit 0 1) d).
    rewrite (proj2 (R_ltb_true _ _)) by (unfold R_lit; lra).
    rewrite Ha. cbn -[v3_length v3_sub v3_add v3_scale]. rewrite Hb.
    eexists _, _. split; [reflexivity|].
    cbn -[v3_length v3_sub v3_add v3_scale]. split.
    + apply (rest_length_after delta _ d); try done; subst delta;
        destruct a as [[] ? ? ? ?], b as [[] ? ? ? ?]; simpl; unfold R_lit;
        field; fold d; lra.
    + destruct a as [[] ? ? ? ?], b as [[] ? ? ? ?].
      unfold v3_add, v3_sub, v3_scale. simpl. f_equal; ring.
  - change (1, 0)%Z with (Z.of_nat 1, Z.of_nat 0).
    rewrite (satisfy_constraint_in_range [a; b] 1 0 b a Hok eq_refl eq_refl).
    cbv zeta. rewrite (v3_length_sym (position a) (position b)).
    set (d := v3_length (v3_sub (position b) (position a))) in *.
    change (f_ltb (f_lit 0 1) d) with (R_ltb (R_lit 0 1) d).
    rewrite (proj2 (R_ltb_true _ _)) by (unfold R_lit; lra).
    rewrite Hb. cbn -[v3_length v3_sub v3_add v3_scale]. rewrite Ha.
    eexists _, _. split; [reflexivity|].
    cbn -[v3_length v3_sub v3_add v3_scale]. split.
    + apply (rest_length_after (v3_sub (position b) (position a)) _ d);
        try done;
        destruct a as [[] ? ? ? ?], b as [[] ? ? ? ?]; simpl; unfold R_lit;
        field; fold d; lra.
    + destruct a as [[] ? ? ? ?], b as [[] ? ? ? ?].
      unfold v3_add, v3_sub, v3_scale. simpl. f_equal; ring.
Qed.

End FreePair.

Lemma free_pair_reaches_rest_length_witness :
  let a := point (F := R) 0%R 0%R 0%R false in
  let b := point (F := R) 0%R (-1)%R 0%R false in
  exists a' b',
    relax [(0, 1)%Z] [a; b] = [a'; b'] /\
    Spec.separation [a'; b'] = 0.1%R /\
    v3_add (position a') (position b') = v3_add (position a) (position b).
Proof.
  intros a b.
  refine (free_pair_reaches_rest_length a b (0, 1)%Z eq_refl eq_refl
            (or_introl eq_refl) _).
  unfold Spec.separation, v3_length, v3_dot, v3_sub, a, b, point.
  cbn [position vx vy vz f_sub f_mul f_add real_ops].
  apply sqrt_lt_R0. lra.
Defined.

(** ** Further properties: finger poses, drawing and the engine
    subsystems *)

(** [AnimateFingers]: a later pose for a hand replaces the earlier one,
    the two hands are independent (calls for different hands commute),
    and nothing but the pose of the named hand is written. *)
Theorem AnimateFingers_compose {F : Type} (hand : Hand)
    (pose1 pose2 : FingerPose F) (st : CharacterRenderer F) :
  AnimateFingers hand pose2 (AnimateFingers hand pose1 st) =
    AnimateFingers hand pose2 st /\
  AnimateFingers LEFT pose1 (AnimateFingers RIGHT pose2 st) =
    AnimateFingers RIGHT pose2 (AnimateFingers LEFT pose1 st) /\
  leftHandPose (character (AnimateFingers RIGHT pose1 st)) =
    leftHandPose (character st) /\
  rightHandPose (character (AnimateFingers LEFT pose1 st)) =
    rightHandPose (character st) /\
  parts (character (AnimateFingers hand pose1 st)) = parts (character st) /\
  currentExpression (character (AnimateFingers hand pose1 st)) =
    currentExpression (character st).
Proof. by destruct hand. Qed.

Section Drawing.
Context {F : Type} {ops : FloatOps F}.

Lemma draw_counts_app (xs ys : list GLCall) :
  draw_counts (xs ++ ys) = draw_counts xs ++ draw_counts ys.
Proof. unfold draw_counts. apply flat_map_app. Qed.

Lemma draw_counts_region (r : MeshRegion F) (shader : Z) :
  draw_counts (RenderMeshRegion r shader) =
    if has_vertices r then [length (indices r)] else [].
Proof. unfold RenderMeshRegion, has_vertices. by destruct (vertices r). Qed.

Lemma draw_counts_regions (rs : list (MeshRegion F)) (shader : Z) :
  draw_counts (flat_map (fun r => RenderMeshRegion r shader) rs) =
    map (fun r => length (indices r)) (List.filter has_vertices rs).
Proof.
  induction rs as [|r rs IH]; [done|].
  simpl flat_map. rewrite draw_counts_app, draw_counts_region, IH. simpl.
  by destruct (has_vertices r).
Qed.

(** [Render] draws exactly the regions that have vertices, in the order
    head, eyes, mouth, left fingers, right fingers, clothing, hair, skirt,
    one [glDrawElements] each with the size of the region's index buffer;
    a region with an empty vertex buffer issues no draw call. *)
Theorem Render_draws_nonempty_regions (characterShader hairShader
    clothShader : Z) (st : CharacterRenderer F) :
  draw_counts (Render characterShader hairShader clothShader st) =
    map (fun r => length (indices r))
        (List.filter has_vertices (render_order (parts (character st)))).
Proof.
  unfold Render, render_order, UpdateShaderUniforms.
  rewrite !draw_counts_app, !draw_counts_region, !draw_counts_regions.
  rewrite !List.filter_app, !map_app. simpl.
  repeat destruct (has_vertices _); done.
Qed.

End Drawing.

Lemma PhysicsEngine_exec_balanced (e : PhysicsEngine.t)
    (c : PhysicsEngine.call) :
  PhysicsEngine.balanced e -> PhysicsEngine.balanced (PhysicsEngine.exec e c).
Proof.
  unfold PhysicsEngine.balanced, PhysicsEngine.lines. intros [Hle Hrun].
  destruct c; simpl.
  - rewrite !count_occ_app. simpl. split; [lia|]. intros H.
    specialize (Hrun H). lia.
  - rewrite !count_occ_app. simpl. split; [lia|]. intros _. lia.
  - unfold PhysicsEngine.stop.
    destruct (PhysicsEngine.m_running e) eqn:E; simpl.
    + rewrite !count_occ_app. simpl. specialize (Hrun eq_refl).
      split; [lia|]. done.
    + rewrite E. split; [done|]. done.
  - unfold PhysicsEngine.update.
    by destruct (negb (PhysicsEngine.m_running e)).
Qed.

(** [PhysicsEngine]: after any sequence of [initialize], [start], [stop]
    and [update] calls on a new engine, the [stopped] lines written do not
    outnumber the [started] lines and are fewer while the engine runs;
    [stop] on a stopped engine and [update] on any engine do nothing, and
    [stop] always leaves the engine stopped. *)
Theorem PhysicsEngine_stop_matches_start (calls : list PhysicsEngine.call) :
  let e := foldl PhysicsEngine.exec PhysicsEngine.create calls in
  (PhysicsEngine.lines PhysicsEngine.stopped e
     <= PhysicsEngine.lines PhysicsEngine.started e)%nat /\
  (PhysicsEngine.m_running e = true ->
   (PhysicsEngine.lines PhysicsEngine.stopped e
      < PhysicsEngine.lines PhysicsEngine.started e)%nat) /\
  PhysicsEngine.stop (PhysicsEngine.stop e) = PhysicsEngine.stop e /\
  PhysicsEngine.m_running (PhysicsEngine.stop e) = false /\
  PhysicsEngine.update tt e = e.
Proof.
  cbv zeta.
  assert (Hbal : forall e0, PhysicsEngine.balanced e0 ->
            PhysicsEngine.balanced (foldl PhysicsEngine.exec e0 calls)).
  { induction calls as [|c cs IH]; intros e0 H0; simpl; [done|].
    apply IH. by apply PhysicsEngine_exec_balanced. }
  destruct (Hbal PhysicsEngine.create) as [Hle Hrun].
  { split; [done|]. discriminate. }
  split; [done|]. split; [done|].
  set (e := foldl _ _ _). unfold PhysicsEngine.stop, PhysicsEngine.update.
  destruct (PhysicsEngine.m_running e) eqn:E; simpl; rewrite ?E; done.
Qed.

(** [Engine]: [run] executes its loop body once and returns with the
    running flag still set, so the [shutdown] that follows (the
    destructor's, at the latest) writes its line and clears the flag; a
    second [shutdown], or one on an engine that never ran, does
    nothing. *)
Theorem Engine_run_then_shutdown (e : Engine.t) :
  Engine.m_running (Engine.run e) = true /\
  Engine.out (Engine.shutdown (Engine.run e)) =
    Engine.out e ++ Engine.run_lines /\
  Engine.m_running (Engine.shutdown (Engine.run e)) = false /\
  Engine.shutdown (Engine.shutdown e) = Engine.shutdown e /\
  Engine.shutdown Engine.create = Engine.create.
Proof.
  repeat split; try done.
  - simpl. by rewrite <- app_assoc.
  - unfold Engine.shutdown. destruct (Engine.m_running e) eqn:E; simpl;
      by rewrite ?E.
Qed.

(** ** Further properties: what a run of frames can reach *)

Section RunFrames.
Context {F : Type} {ops : FloatOps F}.
Implicit Types (st : CharacterRenderer F).

Lemma frame_kept_refl st : frame_kept st st.
Proof. unfold frame_kept. repeat split. Qed.

Lemma frame_kept_trans st1 st2 st3 :
  frame_kept st1 st2 -> frame_kept st2 st3 -> frame_kept st1 st3.
Proof.
  unfold frame_kept. cbv zeta.
  intros (?&?&?&?&?&?&?&?&?&?&?&?&?&?) (?&?&?&?&?&?&?&?&?&?&?&?&?&?).
  repeat split; congruence.
Qed.

Lemma UpdateHairPhysics_kept dt st : frame_kept st (UpdateHairPhysics dt st).
Proof.
  unfold frame_kept. cbv zeta.
  destruct (UpdateHairPhysics_frame dt st) as (?&?&?&?&?&?&?&?).
  destruct (decide (particles (hair (parts (character st))) = [])) as [Hnil|Hne].
  - assert (Hid : UpdateHairPhysics dt st = st).
    { unfold UpdateHairPhysics. by rewrite Hnil. }
    rewrite Hid. repeat split.
  - rewrite UpdateHairPhysics_hair by done. cbv zeta. simpl.
    rewrite relax_length, length_map, write_back_length.
    assert (Hrest : forall st',
      (exists region, st' = set_character st
         (set_parts (character st) (set_hair (parts (character st)) region))) ->
      windForce (character st') = windForce (character st) /\
      leftHandPose (character st') = leftHandPose (character st) /\
      rightHandPose (character st') = rightHandPose (character st)).
    { intros st' [region ->]. done. }
    destruct (Hrest _ (UpdateHairPhysics_writes_hair dt st)) as (?&?&?).
    repeat split; done.
Qed.

Lemma UpdateClothPhysics_kept dt st : frame_kept st (UpdateClothPhysics dt st).
Proof.
  destruct (UpdateClothPhysics_cases dt st) as [-> | ->];
    [apply frame_kept_refl | apply UpdateHairPhysics_kept].
Qed.

Lemma UpdateAnimation_kept libm_sin M_PI dt now rnd st :
  frame_kept st (UpdateAnimation libm_sin M_PI dt now rnd st).
Proof.
  unfold UpdateAnimation, ApplyMorphTargets. cbv zeta.
  set (s := UpdateIdleAnimations _ _ _ _ _).
  assert (Hs : frame_kept st s).
  { subst s. unfold frame_kept, UpdateIdleAnimations. simpl.
    destruct (blink_fires _ _); simpl; repeat split. }
  destruct (enablePhysics s); [|done].
  eapply frame_kept_trans; [exact Hs|].
  eapply frame_kept_trans; [apply UpdateHairPhysics_kept|].
  apply UpdateClothPhysics_kept.
Qed.

(** Over any run of frame updates only the hair region is simulated: the
    skirt and every other region, the hair's constraint list, its
    particle and vertex counts, the wind and the hand poses end as they
    started.  In particular no frame update moves the skirt or creates a
    constraint. *)
Theorem run_frames_only_hair_moves libm_sin M_PI frames st :
  frame_kept st (run_frames libm_sin M_PI frames st).
Proof.
  revert st. induction frames as [|[[dt now] rnd] rest IH]; intros st; simpl.
  - apply frame_kept_refl.
  - eapply frame_kept_trans; [apply UpdateAnimation_kept | apply IH].
Qed.

Lemma UpdateHairPhysics_pinned dt st k p :
  particles (hair (parts (character st))) !! k = Some p ->
  pinned p = true ->
  particles (hair (parts (character (UpdateHairPhysics dt st)))) !! k = Some p.
Proof.
  intros Hk Hp. rewrite UpdateHairPhysics_hair_particles.
  - by apply advance_pinned.
  - intros Hnil. by rewrite Hnil in Hk.
Qed.

Lemma UpdateAnimation_pinned libm_sin M_PI dt now rnd st k p :
  particles (hair (parts (character st))) !! k = Some p ->
  pinned p = true ->
  particles (hair (parts (character
    (UpdateAnimation libm_sin M_PI dt now rnd st)))) !! k = Some p.
Proof.
  intros Hk Hp. unfold UpdateAnimation, ApplyMorphTargets. cbv zeta.
  set (s := UpdateIdleAnimations _ _ _ _ _).
  assert (Hs : particles (hair (parts (character s))) !! k = Some p).
  { subst s.
    by rewrite (proj1 (proj2 (proj2 (UpdateIdleAnimations_frame _ _ _ _ _)))). }
  destruct (enablePhysics s); [|done].
  destruct (UpdateClothPhysics_cases dt (UpdateHairPhysics dt s)) as [-> | ->];
    auto using UpdateHairPhysics_pinned.
Qed.

(** A pinned hair particle is never moved by the frame loop: after any run
    of frame updates, whatever the frame times, the wind, the constraints
    and the arithmetic, it is the particle it was. *)
Theorem run_frames_pinned_fixed libm_sin M_PI frames st k p :
  particles (hair (parts (character st))) !! k = Some p ->
  pinned p = true ->
  particles (hair (parts (character (run_frames libm_sin M_PI frames st))))
    !! k = Some p.
Proof.
  revert st. induction frames as [|[[dt now] rnd] rest IH];
    intros st Hk Hp; simpl; [done|].
  apply IH; [|done]. by apply UpdateAnimation_pinned.
Qed.

End RunFrames.

Lemma run_frames_pinned_fixed_witness :
  let st := renderer_with (F := spec_float) strand strand
              (f_lit 0 1) (f_lit 1 60) in
  particles (hair (parts (character
    (run_frames (fun x => x) (f_lit 355 113)
       [(f_lit 1 60, f_lit 1 60, 1%Z); (f_lit 1 60, f_lit 2 60, 2%Z)] st))))
    !! 0%nat
  = Some (point (f_lit 0 1) (f_lit 0 1) (f_lit 0 1) true).
Proof.
  intros st.
  apply (run_frames_pinned_fixed (fun x => x) (f_lit 355 113)
           [(f_lit 1 60, f_lit 1 60, 1%Z); (f_lit 1 60, f_lit 2 60, 2%Z)]
           st 0%nat (point (f_lit 0 1) (f_lit 0 1) (f_lit 0 1) true));
    reflexivity.
Defined.

(** ** Further properties: a constraint is undirected *)

Section Undirected.
Local Open Scope R_scope.

Lemma translate_flip (p a b : vec3 R) (k h : R) :
  v3_sub p (v3_scale (v3_scale (v3_sub a b) k) h) =
  v3_add p (v3_scale (v3_scale (v3_sub b a) k) h).
Proof. unfold v3_sub, v3_add, v3_scale. simpl. f_equal; ring. Qed.

Lemma satisfy_constraint_swap (ps : list (PhysicsParticle R)) (i j : nat) :
  vector_size_ok ps -> (i < length ps)%nat -> (j < length ps)%nat ->
  satisfy_constraint ps (Z.of_nat i, Z.of_nat j) =
  satisfy_constraint ps (Z.of_nat j, Z.of_nat i).
Proof.
  intros Hok Hi Hj.
  destruct (decide (i = j)) as [-> | Hne]; [done|].
  destruct (lookup_lt_is_Some_2 ps i Hi) as [pi Hpi].
  destruct (lookup_lt_is_Some_2 ps j Hj) as [pj Hpj].
  rewrite (satisfy_constraint_in_range ps i j pi pj Hok Hpi Hpj).
  rewrite (satisfy_constraint_in_range ps j i pj pi Hok Hpj Hpi).
  cbv zeta. rewrite (v3_length_sym (position pi) (position pj)).
  set (d := v3_length (v3_sub (position pj) (position pi))).
  destruct (f_ltb (f_lit 0 1) d); [|done].
  set (k := f_div (f_sub (f_lit 1 10) d) d).
  assert (Hj' : v3_sub (position pj)
            (v3_scale (v3_scale (v3_sub (position pi) (position pj)) k)
                      (f_lit 5 10)) =
          v3_add (position pj)
            (v3_scale (v3_scale (v3_sub (position pj) (position pi)) k)
                      (f_lit 5 10))) by apply translate_flip.
  assert (Hi' : v3_add (position pi)
            (v3_scale (v3_scale (v3_sub (position pi) (position pj)) k)
                      (f_lit 5 10)) =
          v3_sub (position pi)
            (v3_scale (v3_scale (v3_sub (position pj) (position pi)) k)
                      (f_lit 5 10))) by (symmetry; apply translate_flip).
  destruct (pinned pi) eqn:Epi, (pinned pj) eqn:Epj.
  - by rewrite Hpj, Hpi, Epi, Epj.
  - rewrite Hpj, Epj. rewrite list_lookup_insert_ne by done.
    by rewrite Hpi, Epi, Hj'.
  - rewrite list_lookup_insert_ne by done.
    by rewrite Hpj, Epj, Hpi, Epi, Hi'.
  - rewrite !list_lookup_insert_ne by done.
    rewrite Hpj, Epj, Hpi, Epi, Hi', Hj'.
    by apply list_insert_insert_ne.
Qed.

(** A constraint is undirected: in exact arithmetic, the pair [(i, j)]
    and the pair [(j, i)] correct the particles in the same way, whatever
    is pinned. *)
Theorem constraint_undirected (ps : list (PhysicsParticle R)) (c : Z * Z) :
  vector_size_ok ps -> in_range ps c ->
  satisfy_constraint ps (c.2, c.1) = satisfy_constraint ps c.
Proof.
  intros Hok [[H1 H1'] [H2 H2']]. destruct c as [i j]. simpl in *.
  rewrite <- (Z2Nat.id i), <- (Z2Nat.id j) by done.
  symmetry. apply satisfy_constraint_swap; [done|lia|lia].
Qed.

End Undirected.

Lemma constraint_undirected_witness :
  let ps := particles (strand (F := R)) in
  satisfy_constraint ps (1, 0)%Z = satisfy_constraint ps (0, 1)%Z.
Proof.
  intros ps.
  apply (constraint_undirected ps (0, 1)%Z).
  - unfold vector_size_ok. simpl. lia.
  - unfold in_range. simpl. lia.
Defined.
